(** * helpful.Tempfile: a temp-file wrapper with cleanup support

    A shallow embedding of the [Tempfile] class of [helpful.py] and of the
    [with] statement that drives its [__enter__]/[__exit__] pair, together
    with a small executable model of the platform calls it relies on
    ([tempfile.mkstemp], [tempfile.mkdtemp], [os.close], [os.unlink] and
    [shutil.rmtree]).

    Layout: the platform model, the object store and the exception monad,
    the methods of the class, a small operation language for call sequences
    and scope bodies, and then the lemmas. *)

From stdpp Require Import base option list strings gmap sorting.
From Stdlib Require Import ZArith.

Local Open Scope string_scope.
Local Open Scope list_scope.

(** ** Python values and exceptions *)

(** The values that end up in [Tempfile.paths]: [tempfile.mkstemp] returns a
    tuple [(fd, name)], [tempfile.mkdtemp] returns the directory name. *)
Inductive pyval : Type :=
| PyTuple (fd : Z) (name : string)
| PyStr (name : string).

#[global] Instance pyval_eq_dec : EqDecision pyval.
Proof. solve_decision. Defined.

(** [isinstance(path, tuple)] *)
Definition isinstance_tuple (path : pyval) : bool :=
  match path with
  | PyTuple _ _ => true
  | PyStr _ => false
  end.

(** The filesystem path a tracked entry denotes. *)
Definition path_of (v : pyval) : string :=
  match v with
  | PyTuple _ name => name
  | PyStr name => name
  end.

Inductive exn : Type :=
| FileNotFoundError (filename : string)
| NotADirectoryError (filename : string)
| IsADirectoryError (filename : string)
| FileExistsError (msg : string)
| BadFileDescriptor (fd : Z)
| AttributeError (attr : string)
| Exception (msg : string).

#[global] Instance exn_eq_dec : EqDecision exn.
Proof. solve_decision. Defined.

(** How a call ends: it returns a value or raises. *)
Inductive outcome (A : Type) : Type :=
| Return (a : A)
| Raise (e : exn).
Arguments Return {A} a.
Arguments Raise {A} e.

Definition returned {A} (r : outcome A) : bool :=
  match r with
  | Return _ => true
  | Raise _ => false
  end.

(** ** The platform: filesystem, descriptor table and call trace *)

Inductive node : Type := RegularFile | Directory.

(** Keyword arguments shared by [tempfile.mkstemp] and [tempfile.mkdtemp]
    ([None] stands for an omitted argument; the [text] flag of [mkstemp] has
    no effect on what is created and is left out). *)
Record mkargs : Type := MkArgs {
  suffix : option string;
  prefix : option string;
  dir : option string
}.

Definition no_args : mkargs := MkArgs None None None.

Inductive call : Type :=
| CallMkstemp (args : mkargs)
| CallMkdtemp (args : mkargs)
| CallClose (fd : Z)
| CallUnlink (path : string)
| CallRmtree (path : string).

(** One entry of the trace: the platform call and how it ended ([None] is
    Python's [None] result of the three deleting calls). *)
Record event : Type := Event {
  ev_call : call;
  ev_result : outcome (option pyval)
}.

Record world : Type := World {
  nodes : gmap string node;     (* what exists, by path *)
  open_fds : gset Z;            (* open file descriptors *)
  tempdir : string;             (* tempfile.gettempdir() *)
  names : list string;          (* the random name candidates still to come *)
  trace : list event            (* every platform call made so far *)
}.

(** The result of a creation call as the trace records it. *)
Definition as_result (r : outcome pyval) : outcome (option pyval) :=
  match r with
  | Return v => Return (Some v)
  | Raise e => Raise e
  end.

(** [os.path.exists] *)
Definition path_exists (w : world) (p : string) : Prop := is_Some (nodes w !! p).

Definition log (c : call) (r : outcome (option pyval)) (w : world) : world :=
  World (nodes w) (open_fds w) (tempdir w) (names w) (trace w ++ [Event c r]).

Definition set_nodes (nd : gmap string node) (w : world) : world :=
  World nd (open_fds w) (tempdir w) (names w) (trace w).

Definition set_open_fds (fds : gset Z) (w : world) : world :=
  World (nodes w) fds (tempdir w) (names w) (trace w).

Definition set_names (ns : list string) (w : world) : world :=
  World (nodes w) (open_fds w) (tempdir w) ns (trace w).

(** [q] is [p] itself or lies below the directory [p]. *)
Definition under (p q : string) : bool :=
  bool_decide (q = p) || String.prefix (p +:+ "/") q.

(** [os.close(fd)]: fails with EBADF on a descriptor that is not open. *)
Definition os_close (fd : Z) (w : world) : outcome unit * world :=
  if decide (fd ∈ open_fds w)
  then (Return tt, log (CallClose fd) (Return None) (set_open_fds (open_fds w ∖ {[fd]}) w))
  else (Raise (BadFileDescriptor fd), log (CallClose fd) (Raise (BadFileDescriptor fd)) w).

(** [os.unlink(path)]: removes one regular file. *)
Definition os_unlink (p : string) (w : world) : outcome unit * world :=
  match nodes w !! p with
  | Some RegularFile =>
      (Return tt, log (CallUnlink p) (Return None) (set_nodes (delete p (nodes w)) w))
  | Some Directory =>
      (Raise (IsADirectoryError p), log (CallUnlink p) (Raise (IsADirectoryError p)) w)
  | None =>
      (Raise (FileNotFoundError p), log (CallUnlink p) (Raise (FileNotFoundError p)) w)
  end.

(** [shutil.rmtree(path)]: removes the directory and everything below it. *)
Definition shutil_rmtree (p : string) (w : world) : outcome unit * world :=
  match nodes w !! p with
  | Some Directory =>
      (Return tt,
       log (CallRmtree p) (Return None)
         (set_nodes (filter (λ kv : string * node, under p kv.1 = false) (nodes w)) w))
  | Some RegularFile =>
      (Raise (NotADirectoryError p), log (CallRmtree p) (Raise (NotADirectoryError p)) w)
  | None =>
      (Raise (FileNotFoundError p), log (CallRmtree p) (Raise (FileNotFoundError p)) w)
  end.

(** The name search of [tempfile]: candidates are tried in turn until one
    does not exist yet; the candidates that were tried are used up. *)
Fixpoint pick_name (nd : gmap string node) (d pre suf : string) (cands : list string)
  : option (string * list string) :=
  match cands with
  | [] => None
  | n :: rest =>
      let p := d +:+ "/" +:+ pre +:+ n +:+ suf in
      match nd !! p with
      | None => Some (p, rest)
      | Some _ => pick_name nd d pre suf rest
      end
  end.

(** The part common to both creation calls: resolve the directory and find
    an unused name, or fail; also the name candidates left afterwards. *)
Definition choose_path (args : mkargs) (w : world) : (exn + string) * list string :=
  let d := default (tempdir w) (dir args) in
  match nodes w !! d with
  | Some Directory =>
      match pick_name (nodes w) d (default "tmp" (prefix args)) (default "" (suffix args))
              (names w) with
      | Some (p, rest) => (inr p, rest)
      | None => (inl (FileExistsError "No usable temporary file name found"), [])
      end
  | Some RegularFile => (inl (NotADirectoryError d), names w)
  | None => (inl (FileNotFoundError d), names w)
  end.

(** [tempfile.mkstemp(suffix, prefix, dir)]: creates a regular file, opens it
    on a descriptor that is not in use and returns [(fd, name)]. *)
Definition tempfile_mkstemp (args : mkargs) (w : world) : outcome pyval * world :=
  match choose_path args w with
  | (inr p, rest) =>
      let fd := fresh (open_fds w) in
      (Return (PyTuple fd p),
       log (CallMkstemp args) (Return (Some (PyTuple fd p)))
         (set_names rest (set_open_fds ({[fd]} ∪ open_fds w)
            (set_nodes (<[p := RegularFile]> (nodes w)) w))))
  | (inl e, rest) => (Raise e, log (CallMkstemp args) (Raise e) (set_names rest w))
  end.

(** [tempfile.mkdtemp(suffix, prefix, dir)]: creates a directory and returns
    its name. *)
Definition tempfile_mkdtemp (args : mkargs) (w : world) : outcome pyval * world :=
  match choose_path args w with
  | (inr p, rest) =>
      (Return (PyStr p),
       log (CallMkdtemp args) (Return (Some (PyStr p)))
         (set_names rest (set_nodes (<[p := Directory]> (nodes w)) w)))
  | (inl e, rest) => (Raise e, log (CallMkdtemp args) (Raise e) (set_names rest w))
  end.

(** ** The object store and the monad of Python code *)

(** An instance of [class Tempfile]: its only attribute is [paths]. *)
Record Tempfile : Type := MkTempfile { paths : list pyval }.

(** Objects are referred to by identity. *)
Definition ref : Type := nat.

Record state : Type := State {
  heap : gmap nat Tempfile;     (* the live Tempfile objects *)
  fs : world
}.

(** Code runs on the state and either returns or raises; what it did to the
    state before raising stays done. *)
Definition M (A : Type) : Type := state → outcome A * state.

#[global] Instance M_ret : MRet M := λ A a σ, (Return a, σ).

#[global] Instance M_bind : MBind M := λ A B f m σ,
  match m σ with
  | (Return a, σ') => f a σ'
  | (Raise e, σ') => (Raise e, σ')
  end.

Definition raise {A} (e : exn) : M A := λ σ, (Raise e, σ).

(** A platform call made from Python code. *)
Definition platform {A} (f : world → outcome A * world) : M A := λ σ,
  let '(r, w) := f (fs σ) in (r, State (heap σ) w).

(** Reading [self.paths]. *)
Definition get_paths (self : ref) : M (list pyval) := λ σ,
  match heap σ !! self with
  | Some t => (Return (paths t), σ)
  | None => (Raise (AttributeError "paths"), σ)
  end.

(** The assignment [self.paths = l]. *)
Definition set_paths (self : ref) (l : list pyval) : M unit := λ σ,
  (Return tt, State (<[self := MkTempfile l]> (heap σ)) (fs σ)).

(** [self.paths.append(x)] *)
Definition paths_append (self : ref) (x : pyval) : M unit :=
  l ← get_paths self; set_paths self (l ++ [x]).

(** What [self] tracks in [σ], if [self] is a live object. *)
Definition tracked (σ : state) (self : ref) : option (list pyval) :=
  paths <$> heap σ !! self.

(** ** class Tempfile *)

Definition __init__ (self : ref) : M unit :=
  set_paths self [].

(** The expression [Tempfile()]: a new object, initialised by [__init__]. *)
Definition Tempfile_new : M ref := λ σ,
  let self := fresh (dom (heap σ)) in
  (__init__ self;; mret self) σ.

Definition mkstemp (self : ref) (args : mkargs) : M pyval :=
  path ← platform (tempfile_mkstemp args);
  paths_append self path;;
  mret path.

Definition mkdtemp (self : ref) (args : mkargs) : M pyval :=
  path ← platform (tempfile_mkdtemp args);
  paths_append self path;;
  mret path.

(** The body of the [for] loop of [cleanup]; the test
    [isinstance(path, tuple)] is the match on the shape of the entry, and
    [path[0]], [path[1]] are the two components of the tuple. *)
Definition cleanup_entry (path : pyval) : M unit :=
  match path with
  | PyTuple fd name => platform (os_close fd);; platform (os_unlink name)
  | PyStr name => platform (shutil_rmtree name)
  end.

(** [for path in self.paths: ...] over the entries still to visit. *)
Fixpoint cleanup_loop (todo : list pyval) : M unit :=
  match todo with
  | [] => mret tt
  | path :: rest => cleanup_entry path;; cleanup_loop rest
  end.

Definition cleanup (self : ref) : M unit :=
  l ← get_paths self;
  cleanup_loop l;;
  set_paths self [].

Definition __enter__ (self : ref) : M ref :=
  mret self.

(** [__exit__(self, type, value, traceback)]: the three arguments carry the
    exception that ended the body, if any; the method ignores them and
    returns [None]. *)
Definition __exit__ (self : ref) (exc : option exn) : M unit :=
  cleanup self.

(** ** The [with] statement *)

(** [with mgr as target: body]. [__enter__] is called on [mgr] and its
    result is bound to the target; [__exit__] is called on [mgr] when the
    body returns and when it raises. [Tempfile.__exit__] returns [None],
    which is false, so an exception of the body is not swallowed; an
    exception of [__exit__] itself replaces it. *)
Definition with_ {A} (mgr : ref) (body : ref → M A) : M A := λ σ,
  match __enter__ mgr σ with
  | (Raise e, σ0) => (Raise e, σ0)
  | (Return target, σ0) =>
      match body target σ0 with
      | (Return a, σ1) =>
          match __exit__ mgr None σ1 with
          | (Return _, σ2) => (Return a, σ2)
          | (Raise e', σ2) => (Raise e', σ2)
          end
      | (Raise e, σ1) =>
          match __exit__ mgr (Some e) σ1 with
          | (Return _, σ2) => (Raise e, σ2)
          | (Raise e', σ2) => (Raise e', σ2)
          end
      end
  end.

(** ** Call sequences on one manager *)

(** What a method call hands back: [None], a created handle, or an object. *)
Inductive retval : Type :=
| RetNone
| RetVal (v : pyval)
| RetObj (r : ref).

(** The methods a caller can invoke on a manager. *)
Inductive op : Type :=
| OpMkstemp (args : mkargs)
| OpMkdtemp (args : mkargs)
| OpCleanup
| OpEnter
| OpExit (exc : option exn).

Definition is_create (o : op) : bool :=
  match o with
  | OpMkstemp _ | OpMkdtemp _ => true
  | _ => false
  end.

Definition run_op (self : ref) (o : op) : M retval :=
  match o with
  | OpMkstemp args => v ← mkstemp self args; mret (RetVal v)
  | OpMkdtemp args => v ← mkdtemp self args; mret (RetVal v)
  | OpCleanup => cleanup self;; mret RetNone
  | OpEnter => r ← __enter__ self; mret (RetObj r)
  | OpExit exc => __exit__ self exc;; mret RetNone
  end.

(** A caller making the calls one after the other, going on after a call
    that raised (as a caller that catches the exception does). The outcomes
    are collected in call order. *)
Fixpoint run_ops (self : ref) (ops : list op) (σ : state) : list (outcome retval) * state :=
  match ops with
  | [] => ([], σ)
  | o :: rest =>
      let '(r, σ') := run_op self o σ in
      let '(rs, σ'') := run_ops self rest σ' in
      (r :: rs, σ'')
  end.

(** The tracked list as the lifecycle rule describes it: a create call that
    returns appends its handle at the end, a cleanup (also the one of scope
    exit) that returns empties the list, and nothing else changes it. *)
Definition next_tracked (l : list pyval) (o : op) (r : outcome retval) : list pyval :=
  match o, r with
  | OpMkstemp _, Return (RetVal v) => l ++ [v]
  | OpMkdtemp _, Return (RetVal v) => l ++ [v]
  | OpCleanup, Return _ => []
  | OpExit _, Return _ => []
  | _, _ => l
  end.

Fixpoint tracked_after (l : list pyval) (ops : list op) (rs : list (outcome retval))
  : list pyval :=
  match ops, rs with
  | o :: ops', r :: rs' => tracked_after (next_tracked l o r) ops' rs'
  | _, _ => l
  end.

(** ** Scope bodies *)

(** Statements of the body of a [with] block: create calls on the target,
    a [raise], and code that closes or deletes things on its own. *)
Inductive stmt : Type :=
| SMkstemp (args : mkargs)
| SMkdtemp (args : mkargs)
| SRaise (e : exn)
| SOsClose (fd : Z)
| SOsUnlink (path : string)
| SRmtree (path : string).

(** Runs one statement; the value is the handle it created, if any. *)
Definition exec_stmt (s : stmt) (target : ref) : M (option pyval) :=
  match s with
  | SMkstemp args => v ← mkstemp target args; mret (Some v)
  | SMkdtemp args => v ← mkdtemp target args; mret (Some v)
  | SRaise e => raise e
  | SOsClose fd => platform (os_close fd);; mret None
  | SOsUnlink p => platform (os_unlink p);; mret None
  | SRmtree p => platform (shutil_rmtree p);; mret None
  end.

(** Runs the statements in order up to the first one that raises. Next to
    the outcome it gives the handles the create calls returned. *)
Fixpoint exec_body (body : list stmt) (target : ref) (σ : state)
  : list pyval * (outcome unit * state) :=
  match body with
  | [] => ([], (Return tt, σ))
  | s :: rest =>
      match exec_stmt s target σ with
      | (Return c, σ') =>
          let '(cs, res) := exec_body rest target σ' in
          (option_list c ++ cs, res)
      | (Raise e, σ') => ([], (Raise e, σ'))
      end
  end.

Definition created_by (body : list stmt) (target : ref) (σ : state) : list pyval :=
  (exec_body body target σ).1.

Definition body_of (body : list stmt) (target : ref) : M unit := λ σ,
  (exec_body body target σ).2.

(** ** What cleanup leaves in the trace *)

(** The calls [cleanup] makes for one entry. *)
Definition cleanup_calls (v : pyval) : list call :=
  match v with
  | PyTuple fd name => [CallClose fd; CallUnlink name]
  | PyStr name => [CallRmtree name]
  end.

(** The trace of an entry that was cleaned without error. *)
Definition ok_events (v : pyval) : list event :=
  (λ c, Event c (Return None)) <$> cleanup_calls v.

(** The possible traces of an entry whose cleaning raised [e]: the calls
    before the failing one returned, the failing one is the last. *)
Definition failed_events (v : pyval) (e : exn) : list (list event) :=
  match v with
  | PyTuple fd name =>
      [ [Event (CallClose fd) (Raise e)];
        [Event (CallClose fd) (Return None); Event (CallUnlink name) (Raise e)] ]
  | PyStr name => [ [Event (CallRmtree name) (Raise e)] ]
  end.

(** The calls that belong to an entry of a given shape: closing and
    unlinking for a tuple, on its own descriptor and name; removing the
    tree for a bare name, on that name. *)
Definition call_fits (v : pyval) (c : call) : bool :=
  match v, c with
  | PyTuple fd _, CallClose fd' => bool_decide (fd' = fd)
  | PyTuple _ name, CallUnlink p => bool_decide (p = name)
  | PyStr name, CallRmtree p => bool_decide (p = name)
  | _, _ => false
  end.

(** ** Where tracked entries come from *)

(** [v] is what some creation call of the trace returned: a tuple from
    [tempfile.mkstemp], a name from [tempfile.mkdtemp]. *)
Definition produced_by (ev : event) (v : pyval) : bool :=
  match ev_call ev, ev_result ev, v with
  | CallMkstemp _, Return (Some (PyTuple fd p)), PyTuple fd' p' =>
      bool_decide (fd = fd' ∧ p = p')
  | CallMkdtemp _, Return (Some (PyStr p)), PyStr p' => bool_decide (p = p')
  | _, _, _ => false
  end.

Definition produced (w : world) (v : pyval) : bool :=
  existsb (λ ev, produced_by ev v) (trace w).

Definition tracked_inv (σ : state) (self : ref) : Prop :=
  ∃ l, tracked σ self = Some l ∧ Forall (λ v, produced (fs σ) v = true) l.

(** ** A concrete platform *)

(** A machine with an empty [/tmp], the three standard descriptors open
    and no objects yet. *)
Definition world0 : world :=
  World {[ "/tmp" := Directory ]} {[ 0%Z; 1%Z; 2%Z ]} "/tmp" ["a"; "b"; "c"; "d"; "e"] [].

Definition state0 : state := State ∅ world0.

(** [t = Tempfile()] on that machine; the object gets identity [0]. *)
Definition state1 : state := (Tempfile_new state0).2.

(** [d = t.mkdtemp(); t.mkstemp(dir=d); t.mkdtemp()]: a directory, a file
    inside it, and a second directory. *)
Definition nested_body : list stmt :=
  [ SMkdtemp no_args; SMkstemp (MkArgs None None (Some "/tmp/tmpa")); SMkdtemp no_args ].

Definition state_nested : state := (body_of nested_body 0%nat state1).2.

(** Two files and two directories, as in the test suite. *)
Definition four_body : list stmt :=
  [ SMkstemp no_args; SMkstemp no_args; SMkdtemp no_args; SMkdtemp no_args ].

Definition state_four : state := (body_of four_body 0%nat state1).2.

(** ** What a cleanup can reach *)

(** The paths the cleaning of an entry can remove: the file itself for a
    tuple, the directory and all below it for a bare name. *)
Definition touches (v : pyval) (q : string) : bool :=
  match v with
  | PyTuple _ name => bool_decide (q = name)
  | PyStr name => under name q
  end.


(** * The list, string and dict helpers of helpful.py *)

(** ** unique_iter *)

Section unique_iter.
Context `{Countable A}.

(** The comprehension [[x for x in seq if x not in seen and not
    seen.add(x)]]: an element that is not in [seen] is kept and, by the
    side effect of [seen.add(x)] (which returns [None], so that [not]
    of it is true), is in [seen] from then on. *)
Fixpoint unique_iter_from (seen : gset A) (seq : list A) : list A :=
  match seq with
  | [] => []
  | x :: rest =>
      if decide (x ∈ seen) then unique_iter_from seen rest
      else x :: unique_iter_from ({[x]} ∪ seen) rest
  end.

(** [seen = set()] *)
Definition unique_iter (seq : list A) : list A := unique_iter_from ∅ seq.
End unique_iter.

(** ** Python objects and truth *)

(** The objects the helpers below are applied to. *)
#[warnings="-register-all"]
Inductive obj : Type :=
| ONone
| OBool (b : bool)
| OInt (z : Z)
| OStr (s : string)
| OList (items : list obj)
| OTuple (items : list obj)
| OSet (items : list obj).      (* the elements in iteration order *)

(** [bool(x)] *)
Definition truthy (x : obj) : bool :=
  match x with
  | ONone => false
  | OBool b => b
  | OInt z => negb (z =? 0)%Z
  | OStr s => negb (String.eqb s "")
  | OList items | OTuple items | OSet items =>
      match items with [] => false | _ :: _ => true end
  end.


(** ** default *)

(** [default] with its positional and keyword arguments; the name is taken
    by the option library, hence the prefix. The local variable is
    [kwargs.get('default', None)]; the loop returns at the first argument
    that is true. *)
Fixpoint default_loop (args : list obj) (default : obj) : obj :=
  match args with
  | [] => default
  | arg :: rest => if truthy arg then arg else default_loop rest default
  end.

Definition helpful_default (args : list obj) (kwargs : gmap string obj) : obj :=
  let default := from_option id ONone (kwargs !! "default") in
  default_loop args default.

(** ** makelist *)

Definition makelist (data : obj) : list obj :=
  match data with
  | OList items | OSet items | OTuple items => items
  | _ => if truthy data then [data] else []
  end.

(** ** padded_split *)








(** ** urljoin *)

Definition slash : Ascii.ascii := Ascii.Ascii true true true true false true false false.

(** [s.lstrip('/')], [s.rstrip('/')] and [s.strip('/')] *)
Fixpoint lstrip_slash (s : string) : string :=
  match s with
  | EmptyString => EmptyString
  | String c s' => if Ascii.eqb c slash then lstrip_slash s' else s
  end.

Fixpoint rstrip_slash (s : string) : string :=
  match s with
  | EmptyString => EmptyString
  | String c s' =>
      match rstrip_slash s' with
      | EmptyString => if Ascii.eqb c slash then EmptyString else String c EmptyString
      | r => String c r
      end
  end.

Definition strip_slash (s : string) : string := rstrip_slash (lstrip_slash s).

(** [urljoin] on string arguments, for which [str(x)] is [x]. *)
Definition urljoin (args : list string) : string :=
  let value := String.concat "/" (strip_slash <$> args) in
  "/" +:+ value.

(** ** sort_dict_by_key *)

Section sort_dict_by_key.
Context `{Countable K} {V : Type} (R : relation K) `{!RelDecision R}.

(** [sort_func] compares two items by [x[0]]. *)
Definition by_key : relation (K * V) := λ x y, R x.1 y.1.

#[local] Instance by_key_dec : RelDecision by_key.
Proof. intros x y. unfold by_key. apply _. Defined.

(** [OrderedDict(sorted(obj.items(), key=sort_func))]: the result is the
    list of items in the order of the ordered dict. A dict has every key
    once, so the sorted order does not depend on the order of
    [obj.items()]. *)
Definition sort_dict_by_key (obj : gmap K V) : list (K * V) :=
  merge_sort by_key (map_to_list obj).
End sort_dict_by_key.

(** ** ClassDict *)

(** The [ClassDict] objects, by identity, each with the items of its dict.
    The methods are those of [ClassDictMixin]; Python calls [__getattr__]
    for a name that ordinary attribute lookup does not find, and
    [__setattr__] and [__delattr__] for every name. Keys are attribute
    names, hence strings. *)
Abbreviation dstore := (gmap nat (gmap string obj)).

(** [self[name]] if [name in self], else [AttributeError] *)
Definition __getattr__ (self : nat) (name : string) (h : dstore) : outcome obj :=
  match h !! self ≫= (.!! name) with
  | Some v => Return v
  | None => Raise (AttributeError ("No such attribute: " +:+ name))
  end.

(** [self[name] = value] *)
Definition __setattr__ (self : nat) (name : string) (value : obj) (h : dstore) : dstore :=
  alter (insert name value) self h.

(** [del self[name]] if [name in self], else [AttributeError] *)
Definition __delattr__ (self : nat) (name : string) (h : dstore) : outcome unit * dstore :=
  match h !! self ≫= (.!! name) with
  | Some _ => (Return tt, alter (delete name) self h)
  | None => (Raise (AttributeError ("No such attribute: " +:+ name)), h)
  end.

(** [copy]: the class called on the items of [self] as keyword arguments
    gives a new object with these items. *)
Definition copy (self : nat) (h : dstore) : nat * dstore :=
  let new := fresh (dom h) in
  (new, <[new := from_option id ∅ (h !! self)]> h).

(** ** generate_random_token *)

Definition token_chars : string :=
  "abcdefghijklmnopqrstuvwxyz" +:+ "ABCDEFGHIJKLMNOPQRSTUVWXYZ" +:+ "0123456789".

Section generate_random_token.
(** The generator behind [random]: its state, and the draw of a number
    below [n]. *)
Context {rng : Type} (randbelow : nat → rng → nat * rng).

(** [random.choice(seq)] is [seq[randbelow(len(seq))]]. *)
Definition random_choice (seq : string) (g : rng) : option Ascii.ascii * rng :=
  let '(i, g') := randbelow (String.length seq) g in
  (String.get i seq, g').

(** [''.join(random.choice(chars) for _ in range(n))]; an index out of
    range, which a generator within its bounds never gives, ends it. *)
Fixpoint token_loop (n : nat) (g : rng) : option string * rng :=
  match n with
  | O => (Some EmptyString, g)
  | S n' =>
      match random_choice token_chars g with
      | (Some c, g') =>
          match token_loop n' g' with
          | (Some rest, g'') => (Some (String c rest), g'')
          | (None, g'') => (None, g'')
          end
      | (None, g') => (None, g')
      end
  end.

(** [range(length)] is empty for [length <= 0]. *)
Definition generate_random_token (length : Z) (g : rng) : option string * rng :=
  token_loop (Z.to_nat length) g.
End generate_random_token.

(** * Lemmas *)

(** ** The monad *)

Lemma bind_return {A B} (m : M A) (f : A → M B) σ a σ' :
  m σ = (Return a, σ') → (m ≫= f) σ = f a σ'.
Proof. intros H. unfold mbind, M_bind. by rewrite H. Qed.

Lemma bind_raise {A B} (m : M A) (f : A → M B) σ e σ' :
  m σ = (Raise e, σ') → (m ≫= f) σ = (Raise e, σ').
Proof. intros H. unfold mbind, M_bind. by rewrite H. Qed.

(** A bind returns only if both halves do. *)
Lemma bind_inv_return {A B} (m : M A) (f : A → M B) σ b σ2 :
  (m ≫= f) σ = (Return b, σ2) →
  ∃ a σ1, m σ = (Return a, σ1) ∧ f a σ1 = (Return b, σ2).
Proof.
  unfold mbind, M_bind. destruct (m σ) as [[a|e] σ1]; [eauto | discriminate].
Qed.

(** A bind raises in its first half or, that one having returned, in the
    second. *)
Lemma bind_inv_raise {A B} (m : M A) (f : A → M B) σ e σ2 :
  (m ≫= f) σ = (Raise e, σ2) →
  m σ = (Raise e, σ2) ∨ ∃ a σ1, m σ = (Return a, σ1) ∧ f a σ1 = (Raise e, σ2).
Proof.
  unfold mbind, M_bind. destruct (m σ) as [[a|e'] σ1]; [eauto | intros [= -> ->]; eauto].
Qed.

(** Case split on how the first half of a bind in [H] ends. *)
Tactic Notation "bind_cases" constr(m) "in" hyp(H) "as" simple_intropattern(pat)
    "eqn" ident(Hm) :=
  destruct m as pat eqn:Hm;
  [rewrite (bind_return _ _ _ _ _ Hm) in H | rewrite (bind_raise _ _ _ _ _ Hm) in H].

(** ** The platform calls *)

Lemma under_refl p : under p p = true.
Proof. unfold under. by rewrite bool_decide_eq_true_2. Qed.

Lemma os_close_return fd w w' :
  os_close fd w = (Return tt, w') →
  nodes w' = nodes w ∧ open_fds w' = open_fds w ∖ {[fd]} ∧
  trace w' = trace w ++ [Event (CallClose fd) (Return None)].
Proof. unfold os_close. destruct (decide _); intros [= <-]; done. Qed.

Lemma os_close_raise fd w e w' :
  os_close fd w = (Raise e, w') →
  nodes w' = nodes w ∧ open_fds w' = open_fds w ∧
  trace w' = trace w ++ [Event (CallClose fd) (Raise e)].
Proof. unfold os_close. destruct (decide _); intros [= <- <-]; done. Qed.

Lemma os_unlink_return p w w' :
  os_unlink p w = (Return tt, w') →
  nodes w' = delete p (nodes w) ∧ open_fds w' = open_fds w ∧
  trace w' = trace w ++ [Event (CallUnlink p) (Return None)].
Proof. unfold os_unlink. destruct (nodes w !! p) as [[]|]; intros [= <-]; done. Qed.

Lemma os_unlink_raise p w e w' :
  os_unlink p w = (Raise e, w') →
  nodes w' = nodes w ∧ open_fds w' = open_fds w ∧
  trace w' = trace w ++ [Event (CallUnlink p) (Raise e)].
Proof. unfold os_unlink. destruct (nodes w !! p) as [[]|]; intros [= <- <-]; done. Qed.

Lemma shutil_rmtree_return p w w' :
  shutil_rmtree p w = (Return tt, w') →
  nodes w' = filter (λ kv : string * node, under p kv.1 = false) (nodes w) ∧
  open_fds w' = open_fds w ∧
  trace w' = trace w ++ [Event (CallRmtree p) (Return None)].
Proof. unfold shutil_rmtree. destruct (nodes w !! p) as [[]|]; intros [= <-]; done. Qed.

Lemma shutil_rmtree_raise p w e w' :
  shutil_rmtree p w = (Raise e, w') →
  nodes w' = nodes w ∧ open_fds w' = open_fds w ∧
  trace w' = trace w ++ [Event (CallRmtree p) (Raise e)].
Proof. unfold shutil_rmtree. destruct (nodes w !! p) as [[]|]; intros [= <- <-]; done. Qed.

(** A platform call leaves the object store alone. *)
Lemma platform_inv {A} (f : world → outcome A * world) σ r σ' :
  platform f σ = (r, σ') → heap σ' = heap σ ∧ f (fs σ) = (r, fs σ').
Proof. unfold platform. destruct (f (fs σ)) as [r0 w]. by intros [= <- <-]. Qed.

(** ** One entry of the cleanup loop *)

(** What is gone stays gone, and no descriptor gets opened, however the
    entry's cleaning ends. *)
Lemma cleanup_entry_shrinks v σ r σ' :
  cleanup_entry v σ = (r, σ') →
  heap σ' = heap σ ∧
  (∀ q, nodes (fs σ) !! q = None → nodes (fs σ') !! q = None) ∧
  open_fds (fs σ') ⊆ open_fds (fs σ).
Proof.
  destruct v as [fd p|p]; simpl; intros H.
  - destruct r as [[]|e].
    + apply bind_inv_return in H as ([] & σ1 & H1 & H2).
      apply platform_inv in H1 as [Hh1 H1], H2 as [Hh2 H2].
      apply os_close_return in H1 as (Hn1 & Hf1 & _).
      apply os_unlink_return in H2 as (Hn2 & Hf2 & _).
      split; [congruence|]. split.
      * intros q Hq. rewrite Hn2, lookup_delete_None. right. by rewrite Hn1.
      * rewrite Hf2, Hf1. by apply subseteq_difference_l.
    + apply bind_inv_raise in H as [H | ([] & σ1 & H1 & H2)].
      * apply platform_inv in H as [Hh H]. apply os_close_raise in H as (Hn & Hf & _).
        rewrite Hn, Hf. done.
      * apply platform_inv in H1 as [Hh1 H1], H2 as [Hh2 H2].
        apply os_close_return in H1 as (Hn1 & Hf1 & _).
        apply os_unlink_raise in H2 as (Hn2 & Hf2 & _).
        split; [congruence|]. rewrite Hn2, Hn1, Hf2, Hf1.
        split; [done | by apply subseteq_difference_l].
  - apply platform_inv in H as [Hh H]. split; [done|]. destruct r as [[]|e].
    + apply shutil_rmtree_return in H as (Hn & Hf & _). rewrite Hn, Hf. split; [|done].
      intros q Hq. apply map_lookup_filter_None. by left.
    + apply shutil_rmtree_raise in H as (Hn & Hf & _). by rewrite Hn, Hf.
Qed.

(** An entry cleaned without error: its calls are in the trace, its path is
    gone and, for a file entry, its descriptor is closed. *)
Lemma cleanup_entry_return v σ σ' :
  cleanup_entry v σ = (Return tt, σ') →
  trace (fs σ') = trace (fs σ) ++ ok_events v ∧
  nodes (fs σ') !! path_of v = None ∧
  (∀ fd p, v = PyTuple fd p → fd ∉ open_fds (fs σ')).
Proof.
  destruct v as [fd p|p]; simpl; intros H.
  - apply bind_inv_return in H as ([] & σ1 & H1 & H2).
    apply platform_inv in H1 as [_ H1], H2 as [_ H2].
    apply os_close_return in H1 as (Hn1 & Hf1 & Ht1).
    apply os_unlink_return in H2 as (Hn2 & Hf2 & Ht2).
    split; [|split].
    + rewrite Ht2, Ht1, <- app_assoc. done.
    + rewrite Hn2. apply lookup_delete_eq.
    + intros fd' p' [= <- <-]. rewrite Hf2, Hf1.
      apply not_elem_of_difference. right. by apply elem_of_singleton.
  - apply platform_inv in H as [_ H].
    apply shutil_rmtree_return in H as (Hn & Hf & Ht).
    split; [done | split; [|done]].
    rewrite Hn. apply map_lookup_filter_None. right. intros x _. simpl.
    by rewrite under_refl.
Qed.

(** An entry whose cleaning raised: the trace ends with the failing call. *)
Lemma cleanup_entry_raise v σ e σ' :
  cleanup_entry v σ = (Raise e, σ') →
  ∃ evs, evs ∈ failed_events v e ∧ trace (fs σ') = trace (fs σ) ++ evs.
Proof.
  destruct v as [fd p|p]; simpl; intros H.
  - apply bind_inv_raise in H as [H | ([] & σ1 & H1 & H2)].
    + apply platform_inv in H as [_ H]. apply os_close_raise in H as (_ & _ & Ht).
      eexists. split; [|exact Ht]. apply list_elem_of_here.
    + apply platform_inv in H1 as [_ H1], H2 as [_ H2].
      apply os_close_return in H1 as (_ & _ & Ht1).
      apply os_unlink_raise in H2 as (_ & _ & Ht2).
      eexists. split; [|rewrite Ht2, Ht1, <- app_assoc; reflexivity].
      apply list_elem_of_further, list_elem_of_here.
  - apply platform_inv in H as [_ H]. apply shutil_rmtree_raise in H as (_ & _ & Ht).
    eexists. split; [|exact Ht]. apply list_elem_of_here.
Qed.

(** ** The cleanup loop *)

Lemma cleanup_loop_shrinks l : ∀ σ r σ',
  cleanup_loop l σ = (r, σ') →
  heap σ' = heap σ ∧
  (∀ q, nodes (fs σ) !! q = None → nodes (fs σ') !! q = None) ∧
  open_fds (fs σ') ⊆ open_fds (fs σ).
Proof.
  induction l as [|v l IH]; simpl; intros σ r σ' H.
  - by injection H as <- <-.
  - unfold mbind, M_bind in H.
    destruct (cleanup_entry v σ) as [[[]|e] σ1] eqn:Hv;
      apply cleanup_entry_shrinks in Hv as (Hh & Hn & Hf).
    + apply IH in H as (Hh' & Hn' & Hf'). split; [congruence|]. split; [auto|].
      by etrans.
    + by injection H as <- <-.
Qed.

(** The loop ran through: every entry was cleaned, in list order. *)
Lemma cleanup_loop_return l : ∀ σ σ',
  cleanup_loop l σ = (Return tt, σ') →
  trace (fs σ') = trace (fs σ) ++ flat_map ok_events l ∧
  Forall (λ v, nodes (fs σ') !! path_of v = None) l ∧
  (∀ fd p, PyTuple fd p ∈ l → fd ∉ open_fds (fs σ')).
Proof.
  induction l as [|v l IH]; intros σ σ' H.
  - injection H as <-. simpl. rewrite app_nil_r. split; [done|]. split; [done|].
    intros fd p Hin. by apply elem_of_nil in Hin.
  - apply bind_inv_return in H as ([] & σ1 & Hv & Hl).
    pose proof (cleanup_loop_shrinks _ _ _ _ Hl) as (_ & Hgone & Hfds).
    apply cleanup_entry_return in Hv as (Ht & Hp & Hfd).
    apply IH in Hl as (Ht' & Hall & Hfd').
    split; [|split].
    + rewrite Ht', Ht. simpl. by rewrite <- app_assoc.
    + constructor; [by apply Hgone | done].
    + intros fd p [Heq|Hin]%elem_of_cons; [|by eapply Hfd'].
      intros Hopen. eapply Hfd; [symmetry; exact Heq | by apply Hfds].
Qed.

(** The loop raised: the entries before the failing one were cleaned, the
    failing entry's calls end the trace, and nothing was called for the
    entries after it. *)
Lemma cleanup_loop_raise l : ∀ σ e σ',
  cleanup_loop l σ = (Raise e, σ') →
  ∃ pre v post evs,
    l = pre ++ v :: post ∧ evs ∈ failed_events v e ∧
    trace (fs σ') = trace (fs σ) ++ flat_map ok_events pre ++ evs.
Proof.
  induction l as [|v l IH]; intros σ e σ' H.
  - discriminate H.
  - apply bind_inv_raise in H as [Hv | ([] & σ1 & Hv & Hl)].
    + apply cleanup_entry_raise in Hv as (evs & Hin & Ht).
      by exists [], v, l, evs.
    + apply cleanup_entry_return in Hv as (Ht & _).
      apply IH in Hl as (pre & v' & post & evs & -> & Hin & Ht').
      exists (v :: pre), v', post, evs. split; [done|]. split; [done|].
      rewrite Ht', Ht. simpl. by rewrite <- !app_assoc.
Qed.

(** ** cleanup *)

Lemma tracked_Some σ self l :
  tracked σ self = Some l ↔ heap σ !! self = Some (MkTempfile l).
Proof.
  unfold tracked. destruct (heap σ !! self) as [[l']|]; simpl; [|done].
  split; intros [= ->]; done.
Qed.

Lemma tracked_set_paths (h : gmap nat Tempfile) w self l :
  tracked (State (<[self := MkTempfile l]> h) w) self = Some l.
Proof. unfold tracked. simpl. by rewrite lookup_insert_eq. Qed.

(** [cleanup] is its loop over the tracked list, followed, if the loop ran
    through, by the reset of [paths]. *)
Lemma cleanup_unfold self σ l :
  tracked σ self = Some l →
  cleanup self σ =
    match cleanup_loop l σ with
    | (Return _, σ1) => (Return tt, State (<[self := MkTempfile []]> (heap σ1)) (fs σ1))
    | (Raise e, σ1) => (Raise e, σ1)
    end.
Proof.
  intros Hl%tracked_Some. unfold cleanup, get_paths, mbind, M_bind. rewrite Hl. simpl.
  by destruct (cleanup_loop l σ) as [[[]|e] σ1].
Qed.

(** On an object without [paths] the attribute access fails. *)
Lemma cleanup_dangling self σ :
  tracked σ self = None → cleanup self σ = (Raise (AttributeError "paths"), σ).
Proof.
  unfold tracked, cleanup, get_paths, mbind, M_bind.
  by destruct (heap σ !! self).
Qed.

Lemma cleanup_return_inv self σ σ' :
  cleanup self σ = (Return tt, σ') →
  ∃ l σ1, tracked σ self = Some l ∧ cleanup_loop l σ = (Return tt, σ1) ∧
          σ' = State (<[self := MkTempfile []]> (heap σ)) (fs σ1).
Proof.
  intros H. destruct (tracked σ self) as [l|] eqn:Hl.
  - rewrite (cleanup_unfold _ _ _ Hl) in H.
    destruct (cleanup_loop l σ) as [[[]|e] σ1] eqn:Hloop; [|discriminate].
    injection H as <-. exists l, σ1. split; [done|]. split; [done|].
    apply cleanup_loop_shrinks in Hloop as (-> & _). done.
  - rewrite cleanup_dangling in H; done.
Qed.

Lemma cleanup_raise_inv self σ e σ' l :
  tracked σ self = Some l →
  cleanup self σ = (Raise e, σ') →
  cleanup_loop l σ = (Raise e, σ').
Proof.
  intros Hl H. rewrite (cleanup_unfold _ _ _ Hl) in H.
  by destruct (cleanup_loop l σ) as [[[]|e'] σ1].
Qed.

(** ** The create methods *)

(** Both create methods are a platform call followed by the append. *)
Lemma create_unfold (f : world → outcome pyval * world) self σ :
  (path ← platform f; paths_append self path;; mret path) σ =
    match f (fs σ) with
    | (Return v, w) =>
        match heap σ !! self with
        | Some t => (Return v, State (<[self := MkTempfile (paths t ++ [v])]> (heap σ)) w)
        | None => (Raise (AttributeError "paths"), State (heap σ) w)
        end
    | (Raise e, w) => (Raise e, State (heap σ) w)
    end.
Proof.
  unfold mbind, M_bind, platform, paths_append, get_paths, set_paths, mbind, M_bind.
  destruct (f (fs σ)) as [[v|e] w]; simpl; [|done].
  by destruct (heap σ !! self).
Qed.

Lemma mkstemp_unfold self args σ :
  mkstemp self args σ =
    match tempfile_mkstemp args (fs σ) with
    | (Return v, w) =>
        match heap σ !! self with
        | Some t => (Return v, State (<[self := MkTempfile (paths t ++ [v])]> (heap σ)) w)
        | None => (Raise (AttributeError "paths"), State (heap σ) w)
        end
    | (Raise e, w) => (Raise e, State (heap σ) w)
    end.
Proof. apply create_unfold. Qed.

Lemma mkdtemp_unfold self args σ :
  mkdtemp self args σ =
    match tempfile_mkdtemp args (fs σ) with
    | (Return v, w) =>
        match heap σ !! self with
        | Some t => (Return v, State (<[self := MkTempfile (paths t ++ [v])]> (heap σ)) w)
        | None => (Raise (AttributeError "paths"), State (heap σ) w)
        end
    | (Raise e, w) => (Raise e, State (heap σ) w)
    end.
Proof. apply create_unfold. Qed.

(** What a create method does to the tracked list of a live manager. *)
Lemma create_tracked (f : world → outcome pyval * world) self σ l r σ' :
  tracked σ self = Some l →
  (path ← platform f; paths_append self path;; mret path) σ = (r, σ') →
  f (fs σ) = (r, fs σ') ∧
  tracked σ' self = Some (match r with Return v => l ++ [v] | Raise _ => l end).
Proof.
  intros Hl%tracked_Some. rewrite create_unfold, Hl.
  destruct (f (fs σ)) as [[v|e] w]; intros [= <- <-]; simpl; (split; [done|]).
  - apply tracked_set_paths.
  - by apply tracked_Some.
Qed.

Lemma mkstemp_tracked self args σ l r σ' :
  tracked σ self = Some l →
  mkstemp self args σ = (r, σ') →
  tempfile_mkstemp args (fs σ) = (r, fs σ') ∧
  tracked σ' self = Some (match r with Return v => l ++ [v] | Raise _ => l end).
Proof. apply create_tracked. Qed.

Lemma mkdtemp_tracked self args σ l r σ' :
  tracked σ self = Some l →
  mkdtemp self args σ = (r, σ') →
  tempfile_mkdtemp args (fs σ) = (r, fs σ') ∧
  tracked σ' self = Some (match r with Return v => l ++ [v] | Raise _ => l end).
Proof. apply create_tracked. Qed.

(** The trace entry of a creation call, and the shape of what it returns. *)
Lemma tempfile_mkstemp_trace args w r w' :
  tempfile_mkstemp args w = (r, w') →
  trace w' = trace w ++ [Event (CallMkstemp args) (as_result r)] ∧
  (∀ v, r = Return v → isinstance_tuple v = true).
Proof.
  unfold tempfile_mkstemp. destruct (choose_path args w) as [[e|p] rest];
    intros [= <- <-]; (split; [done|]); intros v [= <-]; done.
Qed.

Lemma tempfile_mkdtemp_trace args w r w' :
  tempfile_mkdtemp args w = (r, w') →
  trace w' = trace w ++ [Event (CallMkdtemp args) (as_result r)] ∧
  (∀ v, r = Return v → isinstance_tuple v = false).
Proof.
  unfold tempfile_mkdtemp. destruct (choose_path args w) as [[e|p] rest];
    intros [= <- <-]; (split; [done|]); intros v [= <-]; done.
Qed.

(** ** Scope bodies *)

(** Closing or deleting something directly does not touch the manager. *)
Lemma platform_stmt_tracked (f : world → outcome unit * world) target σ l r σ' :
  tracked σ target = Some l →
  (platform f;; mret (@None pyval)) σ = (r, σ') →
  tracked σ' target =
    Some (l ++ match r with Return c => option_list c | Raise _ => [] end).
Proof.
  intros Hl H. bind_cases (platform f σ) in H as [[[]|e] σ1] eqn Hp;
    apply platform_inv in Hp as [Hh _]; injection H as <- <-;
    unfold tracked in *; rewrite Hh, Hl; simpl; by rewrite app_nil_r.
Qed.

(** A statement of a body never drops a tracked entry: it appends the
    handle it created, if it created one. *)
Lemma exec_stmt_tracked s target σ l r σ' :
  tracked σ target = Some l →
  exec_stmt s target σ = (r, σ') →
  tracked σ' target =
    Some (l ++ match r with Return c => option_list c | Raise _ => [] end).
Proof.
  intros Hl H. destruct s as [args|args|e|fd|p|p]; cbn [exec_stmt] in H.
  - bind_cases (mkstemp target args σ) in H as [[v|e] σ1] eqn Hc;
      apply (mkstemp_tracked _ _ _ _ _ _ Hl) in Hc as [_ Hc]; injection H as <- <-;
      [done | by rewrite app_nil_r].
  - bind_cases (mkdtemp target args σ) in H as [[v|e] σ1] eqn Hc;
      apply (mkdtemp_tracked _ _ _ _ _ _ Hl) in Hc as [_ Hc]; injection H as <- <-;
      [done | by rewrite app_nil_r].
  - injection H as <- <-. by rewrite app_nil_r.
  - by eapply platform_stmt_tracked.
  - by eapply platform_stmt_tracked.
  - by eapply platform_stmt_tracked.
Qed.

(** At the end of a body the manager tracks what it tracked at the start,
    followed by the handles created in the body, in creation order. *)
Lemma exec_body_tracked body target : ∀ σ l cs r σ',
  tracked σ target = Some l →
  exec_body body target σ = (cs, (r, σ')) →
  tracked σ' target = Some (l ++ cs).
Proof.
  induction body as [|s body IH]; simpl; intros σ l cs r σ' Hl H.
  - injection H as <- <- <-. by rewrite app_nil_r.
  - destruct (exec_stmt s target σ) as [[c|e] σ1] eqn:Hs;
      apply (exec_stmt_tracked _ _ _ _ _ _ Hl) in Hs.
    + destruct (exec_body body target σ1) as [cs' [r' σ'']] eqn:Hb.
      injection H as <- <- <-. rewrite app_assoc. by eapply IH.
    + injection H as <- <- <-. done.
Qed.

(** The [with] statement on a Tempfile: the body runs on the manager
    itself, and cleanup runs once after it, however the body ended. *)
Lemma with_unfold {A} (body : ref → M A) mgr σ :
  with_ mgr body σ =
    let '(r, σ1) := body mgr σ in
    let '(c, σ2) := cleanup mgr σ1 in
    (match c with Return _ => r | Raise e' => Raise e' end, σ2).
Proof.
  unfold with_, __enter__, __exit__. simpl.
  destruct (body mgr σ) as [[a|e] σ1]; by destruct (cleanup mgr σ1) as [[[]|e'] σ2].
Qed.

(** ** Consequences for a whole cleanup *)

(** After a cleanup that returned, no tracked path exists and nothing is
    tracked. *)
Lemma cleanup_return_gone self σ l σ' :
  tracked σ self = Some l →
  cleanup self σ = (Return tt, σ') →
  Forall (λ v, ¬ path_exists (fs σ') (path_of v)) l ∧ tracked σ' self = Some [].
Proof.
  intros Hl H. apply cleanup_return_inv in H as (l' & σ1 & Hl' & Hloop & ->).
  assert (l' = l) as -> by congruence.
  apply cleanup_loop_return in Hloop as (_ & Hgone & _). simpl.
  split; [|apply tracked_set_paths].
  eapply Forall_impl; [exact Hgone|]. intros v Hv [x Hx]. congruence.
Qed.

(** A cleanup that raised did not get to the reset of [paths]. *)
Lemma cleanup_raise_tracked self σ l e σ' :
  tracked σ self = Some l →
  cleanup self σ = (Raise e, σ') →
  tracked σ' self = Some l.
Proof.
  intros Hl H. apply (cleanup_raise_inv _ _ _ _ _ Hl) in H.
  apply cleanup_loop_shrinks in H as (Hh & _). unfold tracked in *. by rewrite Hh.
Qed.

Lemma ok_events_calls l :
  ev_call <$> flat_map ok_events l = flat_map cleanup_calls l.
Proof.
  induction l as [|v l IH]; [done|]. simpl. rewrite fmap_app, IH. f_equal.
  by destruct v.
Qed.

Lemma failed_events_calls v e evs :
  evs ∈ failed_events v e → (ev_call <$> evs) `prefix_of` cleanup_calls v.
Proof.
  destruct v as [fd p|p]; simpl; intros Hin.
  - apply elem_of_cons in Hin as [->|Hin]; [by exists [CallUnlink p]|].
    apply list_elem_of_singleton in Hin as ->. by exists [].
  - apply list_elem_of_singleton in Hin as ->. by exists [].
Qed.

(** Whatever its outcome, a cleanup makes the calls of the tracked entries
    in list order, up to where it stops, and no other call. *)
Lemma cleanup_calls_prefix self σ l r σ' :
  tracked σ self = Some l →
  cleanup self σ = (r, σ') →
  ∃ evs, trace (fs σ') = trace (fs σ) ++ evs ∧
         (ev_call <$> evs) `prefix_of` flat_map cleanup_calls l.
Proof.
  intros Hl H. destruct r as [[]|e].
  - apply cleanup_return_inv in H as (l' & σ1 & Hl' & Hloop & ->).
    assert (l' = l) as -> by congruence.
    apply cleanup_loop_return in Hloop as (Ht & _).
    exists (flat_map ok_events l). split; [done|]. by rewrite ok_events_calls.
  - apply (cleanup_raise_inv _ _ _ _ _ Hl) in H.
    apply cleanup_loop_raise in H as (pre & v & post & evs & -> & Hin & Ht).
    exists (flat_map ok_events pre ++ evs). split; [done|].
    apply failed_events_calls in Hin as [k Hk].
    exists (k ++ flat_map cleanup_calls post).
    rewrite fmap_app, ok_events_calls, flat_map_app. simpl.
    rewrite Hk, <- !app_assoc. done.
Qed.

(** The trace of a cleanup, by its outcome: all calls of all entries when
    it returns; when it raises, all calls of the entries before the failing
    one, then the calls of the failing entry up to the one that raised. *)
Lemma cleanup_trace self σ l r σ' :
  tracked σ self = Some l →
  cleanup self σ = (r, σ') →
  match r with
  | Return _ => trace (fs σ') = trace (fs σ) ++ flat_map ok_events l
  | Raise e =>
      ∃ pre v post evs,
        l = pre ++ v :: post ∧ evs ∈ failed_events v e ∧
        trace (fs σ') = trace (fs σ) ++ flat_map ok_events pre ++ evs
  end.
Proof.
  intros Hl H. destruct r as [[]|e].
  - apply cleanup_return_inv in H as (l' & σ1 & Hl' & Hloop & ->).
    assert (l' = l) as -> by congruence.
    by apply cleanup_loop_return in Hloop as (Ht & _).
  - apply (cleanup_raise_inv _ _ _ _ _ Hl) in H.
    apply cleanup_loop_raise in H as (pre & v & post & evs & -> & Hin & Ht).
    by exists pre, v, post, evs.
Qed.

(** ** One method call *)

Lemma Tempfile_new_fresh σ :
  ∃ self, Tempfile_new σ = (Return self, State (<[self := MkTempfile []]> (heap σ)) (fs σ)) ∧
          heap σ !! self = None.
Proof.
  exists (fresh (dom (heap σ))). split; [done|].
  apply not_elem_of_dom, is_fresh.
Qed.

(** Each method call moves the tracked list by the lifecycle rule. *)
Lemma run_op_tracked self o σ l r σ' :
  tracked σ self = Some l →
  run_op self o σ = (r, σ') →
  tracked σ' self = Some (next_tracked l o r) ∧
  (is_create o = true → returned r = true → ∃ v, r = Return (RetVal v)).
Proof.
  intros Hl H. destruct o as [args|args| | |exc]; cbn [run_op] in H.
  - bind_cases (mkstemp self args σ) in H as [[v|e] σ1] eqn Hc;
      apply (mkstemp_tracked _ _ _ _ _ _ Hl) in Hc as [_ Hc]; injection H as <- <-;
      (split; [done|]); [by eauto | done].
  - bind_cases (mkdtemp self args σ) in H as [[v|e] σ1] eqn Hc;
      apply (mkdtemp_tracked _ _ _ _ _ _ Hl) in Hc as [_ Hc]; injection H as <- <-;
      (split; [done|]); [by eauto | done].
  - bind_cases (cleanup self σ) in H as [[[]|e] σ1] eqn Hc;
      injection H as <- <-; (split; [|done]); simpl.
    + by destruct (cleanup_return_gone _ _ _ _ Hl Hc).
    + by eapply cleanup_raise_tracked.
  - injection H as <- <-. done.
  - unfold __exit__ in H. bind_cases (cleanup self σ) in H as [[[]|e] σ1] eqn Hc;
      injection H as <- <-; (split; [|done]); simpl.
    + by destruct (cleanup_return_gone _ _ _ _ Hl Hc).
    + by eapply cleanup_raise_tracked.
Qed.

(** Each method call only adds to the trace. *)
Lemma run_op_trace self o σ l r σ' :
  tracked σ self = Some l →
  run_op self o σ = (r, σ') →
  ∃ evs, trace (fs σ') = trace (fs σ) ++ evs ∧
         ∀ v, is_create o = true → r = Return (RetVal v) →
              ∃ ev, ev ∈ evs ∧ produced_by ev v = true.
Proof.
  intros Hl H. destruct o as [args|args| | |exc]; cbn [run_op] in H.
  - bind_cases (mkstemp self args σ) in H as [[v|e] σ1] eqn Hc;
      apply (mkstemp_tracked _ _ _ _ _ _ Hl) in Hc as [Hp _]; injection H as <- <-;
      apply tempfile_mkstemp_trace in Hp as [Ht Hshape]; (eexists; split; [exact Ht|]);
      [|done].
    intros v' _ [= <-]. eexists. split; [apply list_elem_of_here|].
    specialize (Hshape v eq_refl). destruct v as [fd p|p]; [|done].
    unfold produced_by. simpl. by apply bool_decide_eq_true_2.
  - bind_cases (mkdtemp self args σ) in H as [[v|e] σ1] eqn Hc;
      apply (mkdtemp_tracked _ _ _ _ _ _ Hl) in Hc as [Hp _]; injection H as <- <-;
      apply tempfile_mkdtemp_trace in Hp as [Ht Hshape]; (eexists; split; [exact Ht|]);
      [|done].
    intros v' _ [= <-]. eexists. split; [apply list_elem_of_here|].
    specialize (Hshape v eq_refl). destruct v as [fd p|p]; [done|].
    unfold produced_by. simpl. by apply bool_decide_eq_true_2.
  - bind_cases (cleanup self σ) in H as [[[]|e] σ1] eqn Hc;
      injection H as <- <-;
      destruct (cleanup_calls_prefix _ _ _ _ _ Hl Hc) as (evs & Ht & _);
      exists evs; (split; [done|]); done.
  - injection H as <- <-. exists []. by rewrite app_nil_r.
  - unfold __exit__ in H. bind_cases (cleanup self σ) in H as [[[]|e] σ1] eqn Hc;
      injection H as <- <-;
      destruct (cleanup_calls_prefix _ _ _ _ _ Hl Hc) as (evs & Ht & _);
      exists evs; (split; [done|]); done.
Qed.

Lemma produced_app w w' evs v :
  trace w' = trace w ++ evs →
  produced w' v = produced w v || existsb (λ ev, produced_by ev v) evs.
Proof. unfold produced. intros ->. apply existsb_app. Qed.

(** The calls made for one entry fit its shape. *)
Lemma cleanup_entry_calls_fit v σ r σ' :
  cleanup_entry v σ = (r, σ') →
  ∃ evs, trace (fs σ') = trace (fs σ) ++ evs ∧ evs ≠ [] ∧
         Forall (λ ev, call_fits v (ev_call ev) = true) evs.
Proof.
  intros H. destruct r as [[]|e].
  - apply cleanup_entry_return in H as (Ht & _). exists (ok_events v).
    split; [done|]. destruct v as [fd p|p]; (split; [done|]);
      repeat constructor; simpl; by apply bool_decide_eq_true_2.
  - apply cleanup_entry_raise in H as (evs & Hin & Ht). exists evs. split; [done|].
    destruct v as [fd p|p]; simpl in Hin.
    + apply elem_of_cons in Hin as [->|Hin];
        [|apply list_elem_of_singleton in Hin as ->]; (split; [done|]);
        repeat constructor; simpl; by apply bool_decide_eq_true_2.
    + apply list_elem_of_singleton in Hin as ->. split; [done|].
      repeat constructor; simpl; by apply bool_decide_eq_true_2.
Qed.

(** * The claims *)

(** C1. A cleanup that meets no deletion error works through the tracked
    handles in insertion order: for every file handle it closes the
    descriptor and then unlinks the file, for every directory handle it
    removes the tree. Afterwards no tracked path exists, the descriptors of
    the file handles are closed and the tracked list is empty. *)
Theorem cleanup_removes_every_tracked_path self σ l σ' :
  tracked σ self = Some l →
  cleanup self σ = (Return tt, σ') →
  trace (fs σ') = trace (fs σ) ++ flat_map ok_events l ∧
  Forall (λ v, ¬ path_exists (fs σ') (path_of v)) l ∧
  (∀ fd p, PyTuple fd p ∈ l → fd ∉ open_fds (fs σ')) ∧
  tracked σ' self = Some [].
Proof.
  intros Hl H. apply cleanup_return_inv in H as (l' & σ1 & Hl' & Hloop & ->).
  assert (l' = l) as -> by congruence.
  apply cleanup_loop_return in Hloop as (Ht & Hgone & Hfd). simpl.
  split; [done|]. split; [|split; [done|]].
  - eapply Forall_impl; [exact Hgone|]. intros v Hv [x Hx]. unfold path_exists in *.
    congruence.
  - apply tracked_set_paths.
Qed.

Lemma cleanup_removes_every_tracked_path_witness :
  let σ' := (cleanup 0%nat state_four).2 in
  tracked state_four 0%nat =
    Some [PyTuple 3 "/tmp/tmpa"; PyTuple 4 "/tmp/tmpb"; PyStr "/tmp/tmpc"; PyStr "/tmp/tmpd"] ∧
  cleanup 0%nat state_four = (Return tt, σ') ∧
  Forall (λ v, ¬ path_exists (fs σ') (path_of v))
    [PyTuple 3 "/tmp/tmpa"; PyTuple 4 "/tmp/tmpb"; PyStr "/tmp/tmpc"; PyStr "/tmp/tmpd"] ∧
  tracked σ' 0%nat = Some [].
Proof.
  intros σ'.
  assert (H1 : tracked state_four 0%nat =
    Some [PyTuple 3 "/tmp/tmpa"; PyTuple 4 "/tmp/tmpb"; PyStr "/tmp/tmpc"; PyStr "/tmp/tmpd"])
    by (vm_compute; reflexivity).
  assert (H2 : cleanup 0%nat state_four = (Return tt, σ')) by (vm_compute; reflexivity).
  split; [exact H1|]. split; [exact H2|].
  destruct (cleanup_removes_every_tracked_path _ _ _ _ H1 H2) as (_ & Hgone & _ & Hempty).
  split; [exact Hgone | exact Hempty].
Defined.

(** C4. A cleanup that raises is fail-fast. The handles before the failing
    one were cleaned without error, the error raised is the one of the
    first failing call, which is the last call cleanup made, so nothing was
    attempted for the handles after it; and the tracked list is what it was
    before the call, hence not empty, the later entries still in it. *)
Theorem cleanup_fails_fast self σ l e σ' :
  tracked σ self = Some l →
  cleanup self σ = (Raise e, σ') →
  ∃ pre v post evs,
    l = pre ++ v :: post ∧
    evs ∈ failed_events v e ∧
    trace (fs σ') = trace (fs σ) ++ flat_map ok_events pre ++ evs ∧
    tracked σ' self = Some (pre ++ v :: post) ∧
    l ≠ [].
Proof.
  intros Hl H. apply (cleanup_raise_inv _ _ _ _ _ Hl) in H.
  pose proof (cleanup_loop_shrinks _ _ _ _ H) as (Hh & _).
  apply cleanup_loop_raise in H as (pre & v & post & evs & -> & Hin & Ht).
  exists pre, v, post, evs. split; [done|]. split; [done|]. split; [done|]. split.
  - unfold tracked in *. by rewrite Hh.
  - by destruct pre.
Qed.

Lemma cleanup_fails_fast_witness :
  let l := [PyStr "/tmp/tmpa"; PyTuple 3 "/tmp/tmpa/tmpb"; PyStr "/tmp/tmpc"] in
  let e := FileNotFoundError "/tmp/tmpa/tmpb" in
  let σ' := (cleanup 0%nat state_nested).2 in
  tracked state_nested 0%nat = Some l ∧
  cleanup 0%nat state_nested = (Raise e, σ') ∧
  ∃ pre v post evs,
    l = pre ++ v :: post ∧
    evs ∈ failed_events v e ∧
    trace (fs σ') = trace (fs state_nested) ++ flat_map ok_events pre ++ evs ∧
    tracked σ' 0%nat = Some (pre ++ v :: post) ∧
    l ≠ [].
Proof.
  intros l e σ'.
  assert (H1 : tracked state_nested 0%nat = Some l) by (vm_compute; reflexivity).
  assert (H2 : cleanup 0%nat state_nested = (Raise e, σ')) by (vm_compute; reflexivity).
  split; [exact H1|]. split; [exact H2|].
  exact (cleanup_fails_fast _ _ _ _ _ H1 H2).
Defined.

(** C3, as the code has it. A cleanup that returns leaves the tracked list
    empty, so that a further cleanup makes no call at all; a cleanup that
    raises leaves the tracked list exactly as it found it. *)
Theorem cleanup_resets_tracked_on_return_only self σ l r σ' :
  tracked σ self = Some l →
  cleanup self σ = (r, σ') →
  match r with
  | Return _ => tracked σ' self = Some [] ∧ cleanup self σ' = (Return tt, σ')
  | Raise _ => tracked σ' self = Some l
  end.
Proof.
  intros Hl H. destruct r as [[]|e].
  - apply cleanup_return_inv in H as (l' & σ1 & _ & _ & ->).
    split; [apply tracked_set_paths|].
    rewrite (cleanup_unfold _ _ [] (tracked_set_paths _ _ _ _)). simpl.
    by rewrite insert_insert_eq.
  - by eapply cleanup_raise_tracked.
Qed.

Lemma cleanup_resets_tracked_on_return_only_witness :
  let l := [PyStr "/tmp/tmpa"; PyTuple 3 "/tmp/tmpa/tmpb"; PyStr "/tmp/tmpc"] in
  let r := (cleanup 0%nat state_nested).1 in
  let σ' := (cleanup 0%nat state_nested).2 in
  tracked state_nested 0%nat = Some l ∧
  cleanup 0%nat state_nested = (r, σ') ∧
  tracked σ' 0%nat = Some l.
Proof.
  intros l r σ'.
  assert (H1 : tracked state_nested 0%nat = Some l) by (vm_compute; reflexivity).
  assert (H2 : cleanup 0%nat state_nested = (r, σ')) by (vm_compute; reflexivity).
  split; [exact H1|]. split; [exact H2|].
  exact (cleanup_resets_tracked_on_return_only _ _ _ _ _ H1 H2).
Defined.

(** C3, as stated, fails. On the manager that tracks a directory, a file
    created inside that directory and a second directory, cleanup removes
    the first directory with the file in it, fails to unlink the file and
    raises; all three handles are still tracked, and a second cleanup goes
    at the first directory once more. *)
Lemma cleanup_raise_keeps_tracked_counterexample :
  let σ' := (cleanup 0%nat state_nested).2 in
  (cleanup 0%nat state_nested).1 = Raise (FileNotFoundError "/tmp/tmpa/tmpb") ∧
  tracked σ' 0%nat =
    Some [PyStr "/tmp/tmpa"; PyTuple 3 "/tmp/tmpa/tmpb"; PyStr "/tmp/tmpc"] ∧
  tracked σ' 0%nat ≠ Some [] ∧
  drop 3 (ev_call <$> trace (fs (cleanup 0%nat σ').2)) =
    [CallRmtree "/tmp/tmpa"; CallClose 3; CallUnlink "/tmp/tmpa/tmpb"; CallRmtree "/tmp/tmpa"].
Proof.
  intros σ'. split; [vm_compute; reflexivity|]. split; [vm_compute; reflexivity|].
  split; [vm_compute; discriminate | vm_compute; reflexivity].
Qed.

(** C5. When the platform's creation call raises, the create method raises
    the same error and the object store is as before: nothing was appended
    to any tracked list. Only the platform's own state moved on. *)
Theorem create_failure_tracks_nothing self args σ e w :
  (tempfile_mkstemp args (fs σ) = (Raise e, w) →
   mkstemp self args σ = (Raise e, State (heap σ) w)) ∧
  (tempfile_mkdtemp args (fs σ) = (Raise e, w) →
   mkdtemp self args σ = (Raise e, State (heap σ) w)).
Proof.
  split; intros H; [rewrite mkstemp_unfold | rewrite mkdtemp_unfold]; by rewrite H.
Qed.

Lemma create_failure_tracks_nothing_witness :
  let args := MkArgs None None (Some "/nowhere") in
  let e := FileNotFoundError "/nowhere" in
  let w1 := (tempfile_mkstemp args (fs state_four)).2 in
  let w2 := (tempfile_mkdtemp args (fs state_four)).2 in
  (tempfile_mkstemp args (fs state_four) = (Raise e, w1) ∧
   mkstemp 0%nat args state_four = (Raise e, State (heap state_four) w1)) ∧
  (tempfile_mkdtemp args (fs state_four) = (Raise e, w2) ∧
   mkdtemp 0%nat args state_four = (Raise e, State (heap state_four) w2)).
Proof.
  intros args e w1 w2.
  assert (H1 : tempfile_mkstemp args (fs state_four) = (Raise e, w1))
    by (vm_compute; reflexivity).
  assert (H2 : tempfile_mkdtemp args (fs state_four) = (Raise e, w2))
    by (vm_compute; reflexivity).
  split.
  - split; [exact H1|].
    exact (proj1 (create_failure_tracks_nothing 0%nat args state_four e w1) H1).
  - split; [exact H2|].
    exact (proj2 (create_failure_tracks_nothing 0%nat args state_four e w2) H2).
Defined.

(** C6. With nothing tracked, cleanup returns and changes nothing, not even
    the trace. So after a cleanup that returned, a second cleanup is a
    no-op. *)
Theorem cleanup_of_nothing_is_noop self σ :
  (tracked σ self = Some [] → cleanup self σ = (Return tt, σ)) ∧
  (∀ σ0, cleanup self σ0 = (Return tt, σ) → cleanup self σ = (Return tt, σ)).
Proof.
  assert (Hnoop : tracked σ self = Some [] → cleanup self σ = (Return tt, σ)).
  { intros Hl. rewrite (cleanup_unfold _ _ _ Hl). simpl.
    apply tracked_Some in Hl. rewrite (insert_id _ _ _ Hl). by destruct σ. }
  split; [exact Hnoop|].
  intros σ0 H. apply Hnoop.
  apply cleanup_return_inv in H as (l & σ1 & _ & _ & ->). apply tracked_set_paths.
Qed.

Lemma cleanup_of_nothing_is_noop_witness :
  let σ := (cleanup 0%nat state_four).2 in
  (tracked state1 0%nat = Some [] ∧ cleanup 0%nat state1 = (Return tt, state1)) ∧
  (cleanup 0%nat state_four = (Return tt, σ) ∧ cleanup 0%nat σ = (Return tt, σ)).
Proof.
  intros σ.
  assert (H1 : tracked state1 0%nat = Some []) by (vm_compute; reflexivity).
  assert (H2 : cleanup 0%nat state_four = (Return tt, σ)) by (vm_compute; reflexivity).
  split.
  - split; [exact H1|]. exact (proj1 (cleanup_of_nothing_is_noop 0%nat state1) H1).
  - split; [exact H2|]. exact (proj2 (cleanup_of_nothing_is_noop 0%nat σ) state_four H2).
Defined.

(** C7. After a cleanup that returned the manager is usable again: a create
    call ends the way the platform's creation call ends, so it returns a
    handle whenever the platform creates one, and that handle is then the
    one tracked entry. *)
Theorem create_after_cleanup self args σ σ1 :
  cleanup self σ = (Return tt, σ1) →
  (∀ r w, tempfile_mkstemp args (fs σ1) = (r, w) →
     ∃ σ2, mkstemp self args σ1 = (r, σ2) ∧ fs σ2 = w ∧
           tracked σ2 self = Some (match r with Return v => [v] | Raise _ => [] end)) ∧
  (∀ r w, tempfile_mkdtemp args (fs σ1) = (r, w) →
     ∃ σ2, mkdtemp self args σ1 = (r, σ2) ∧ fs σ2 = w ∧
           tracked σ2 self = Some (match r with Return v => [v] | Raise _ => [] end)).
Proof.
  intros H. apply cleanup_return_inv in H as (l & σ' & _ & _ & ->).
  split; intros r w Hp.
  - destruct (mkstemp self args _) as [r' σ2] eqn:Hm.
    destruct (mkstemp_tracked _ _ _ [] _ _ (tracked_set_paths _ _ _ _) Hm) as [Hp' Ht].
    rewrite Hp in Hp'. injection Hp' as <- ->. by exists σ2.
  - destruct (mkdtemp self args _) as [r' σ2] eqn:Hm.
    destruct (mkdtemp_tracked _ _ _ [] _ _ (tracked_set_paths _ _ _ _) Hm) as [Hp' Ht].
    rewrite Hp in Hp'. injection Hp' as <- ->. by exists σ2.
Qed.

Lemma create_after_cleanup_witness :
  let σ1 := (cleanup 0%nat state_four).2 in
  cleanup 0%nat state_four = (Return tt, σ1) ∧
  (∃ σ2, mkstemp 0%nat no_args σ1 = (Return (PyTuple 3 "/tmp/tmpe"), σ2) ∧
         tracked σ2 0%nat = Some [PyTuple 3 "/tmp/tmpe"]) ∧
  (∃ σ2, mkdtemp 0%nat no_args σ1 = (Return (PyStr "/tmp/tmpe"), σ2) ∧
         tracked σ2 0%nat = Some [PyStr "/tmp/tmpe"]).
Proof.
  intros σ1.
  assert (H : cleanup 0%nat state_four = (Return tt, σ1)) by (vm_compute; reflexivity).
  split; [exact H|].
  destruct (create_after_cleanup 0%nat no_args state_four σ1 H) as [Hf Hd].
  split.
  - destruct (Hf (Return (PyTuple 3 "/tmp/tmpe")) (tempfile_mkstemp no_args (fs σ1)).2)
      as (σ2 & Hm & _ & Ht); [vm_compute; reflexivity|].
    exists σ2. split; [exact Hm | exact Ht].
  - destruct (Hd (Return (PyStr "/tmp/tmpe")) (tempfile_mkdtemp no_args (fs σ1)).2)
      as (σ2 & Hm & _ & Ht); [vm_compute; reflexivity|].
    exists σ2. split; [exact Hm | exact Ht].
Defined.

(** C2, as the code has it. Scope entry hands the body the manager itself
    in an unchanged state, and scope exit runs cleanup exactly once,
    whether the body returned or raised; an error of the body goes on to
    the caller unless the cleanup raises one of its own. When that cleanup
    returns, nothing that was created inside the scope exists afterwards
    and the tracked list is empty. *)
Theorem scope_exit_cleans_up_once :
  (∀ (A : Type) (body : ref → M A) mgr σ,
     with_ mgr body σ =
       let '(r, σ1) := body mgr σ in
       let '(c, σ2) := cleanup mgr σ1 in
       (match c with Return _ => r | Raise e' => Raise e' end, σ2)) ∧
  (∀ body mgr σ l r σ1 σ2,
     tracked σ mgr = Some l →
     body_of body mgr σ = (r, σ1) →
     cleanup mgr σ1 = (Return tt, σ2) →
     with_ mgr (body_of body) σ = (r, σ2) ∧
     Forall (λ v, ¬ path_exists (fs σ2) (path_of v)) (created_by body mgr σ) ∧
     tracked σ2 mgr = Some []).
Proof.
  split; [intros; apply with_unfold|].
  intros body mgr σ l r σ1 σ2 Hl Hb Hc. split.
  - rewrite with_unfold, Hb, Hc. done.
  - unfold body_of, created_by in *.
    destruct (exec_body body mgr σ) as [cs [r' σ1']] eqn:He. simpl in Hb.
    injection Hb as -> ->. simpl.
    pose proof (exec_body_tracked _ _ _ _ _ _ _ Hl He) as Ht.
    destruct (cleanup_return_gone _ _ _ _ Ht Hc) as [Hgone Hempty].
    split; [|done]. by apply Forall_app in Hgone as [_ Hgone].
Qed.

Lemma scope_exit_cleans_up_once_witness :
  let body := four_body ++ [SRaise (Exception "boom")] in
  let r := Raise (Exception "boom") in
  let σ1 := (body_of body 0%nat state1).2 in
  let σ2 := (cleanup 0%nat σ1).2 in
  (tracked state1 0%nat = Some [] ∧
   body_of body 0%nat state1 = (r, σ1) ∧
   cleanup 0%nat σ1 = (Return tt, σ2)) ∧
  with_ 0%nat (body_of body) state1 = (r, σ2) ∧
  Forall (λ v, ¬ path_exists (fs σ2) (path_of v))
    [PyTuple 3 "/tmp/tmpa"; PyTuple 4 "/tmp/tmpb"; PyStr "/tmp/tmpc"; PyStr "/tmp/tmpd"] ∧
  tracked σ2 0%nat = Some [].
Proof.
  intros body r σ1 σ2.
  assert (H1 : tracked state1 0%nat = Some []) by (vm_compute; reflexivity).
  assert (H2 : body_of body 0%nat state1 = (r, σ1)) by (vm_compute; reflexivity).
  assert (H3 : cleanup 0%nat σ1 = (Return tt, σ2)) by (vm_compute; reflexivity).
  split; [exact (conj H1 (conj H2 H3))|].
  exact (proj2 scope_exit_cleans_up_once body 0%nat state1 [] r σ1 σ2 H1 H2 H3).
Defined.

(** C2, as stated, fails. A scope that creates a directory, a file inside
    that directory and a second directory ends normally; the cleanup of
    scope exit removes the first directory, fails on the file that went
    with it and raises, and the second directory, created inside the scope,
    still exists after the scope. *)
Lemma scope_leaves_directory_counterexample :
  let after := with_ 0%nat (body_of nested_body) state1 in
  (body_of nested_body 0%nat state1).1 = Return tt ∧
  PyStr "/tmp/tmpc" ∈ created_by nested_body 0%nat state1 ∧
  after.1 = Raise (FileNotFoundError "/tmp/tmpa/tmpb") ∧
  path_exists (fs after.2) "/tmp/tmpc".
Proof.
  intros after. split; [vm_compute; reflexivity|]. split.
  - vm_compute. apply list_elem_of_further, list_elem_of_further, list_elem_of_here.
  - split; [vm_compute; reflexivity|]. unfold path_exists.
    exists Directory. vm_compute. reflexivity.
Qed.

(** C10, as the code has it. [__enter__] returns the object it was called
    on and changes nothing. So at the end of the body the manager still
    tracks what it tracked before the scope, ahead of what the body
    created, and the cleanup of scope exit works on that whole list from
    the front: when it returns it has made all calls of all these entries
    and none of the earlier paths exists; when it raises it has made the
    calls of the entries before the failing one and stopped there. *)
Theorem enter_keeps_earlier_entries :
  (∀ self σ, __enter__ self σ = (Return self, σ)) ∧
  (∀ body mgr σ pre r σ1 c σ2,
     tracked σ mgr = Some pre →
     body_of body mgr σ = (r, σ1) →
     cleanup mgr σ1 = (c, σ2) →
     tracked σ1 mgr = Some (pre ++ created_by body mgr σ) ∧
     (with_ mgr (body_of body) σ).2 = σ2 ∧
     match c with
     | Return _ =>
         trace (fs σ2) =
           trace (fs σ1) ++ flat_map ok_events (pre ++ created_by body mgr σ) ∧
         Forall (λ v, ¬ path_exists (fs σ2) (path_of v)) pre
     | Raise e =>
         ∃ cleaned v post evs,
           pre ++ created_by body mgr σ = cleaned ++ v :: post ∧
           evs ∈ failed_events v e ∧
           trace (fs σ2) = trace (fs σ1) ++ flat_map ok_events cleaned ++ evs
     end).
Proof.
  split; [done|].
  intros body mgr σ pre r σ1 c σ2 Hl Hb Hc.
  assert (Ht : tracked σ1 mgr = Some (pre ++ created_by body mgr σ)).
  { unfold body_of, created_by in *.
    destruct (exec_body body mgr σ) as [cs [r' σ1']] eqn:He. simpl in Hb.
    injection Hb as -> ->. by eapply exec_body_tracked. }
  split; [done|]. split; [by rewrite with_unfold, Hb, Hc|].
  pose proof (cleanup_trace _ _ _ _ _ Ht Hc) as Htrace.
  destruct c as [[]|e]; [|done]. split; [done|].
  destruct (cleanup_return_gone _ _ _ _ Ht Hc) as [Hgone _].
  by apply Forall_app in Hgone as [Hgone _].
Qed.

Lemma enter_keeps_earlier_entries_witness :
  let body := [SMkdtemp no_args] in
  let pre := [PyTuple 3 "/tmp/tmpa"; PyTuple 4 "/tmp/tmpb"; PyStr "/tmp/tmpc"; PyStr "/tmp/tmpd"] in
  let σ1 := (body_of body 0%nat state_four).2 in
  let σ2 := (cleanup 0%nat σ1).2 in
  (tracked state_four 0%nat = Some pre ∧
   body_of body 0%nat state_four = (Return tt, σ1) ∧
   cleanup 0%nat σ1 = (Return tt, σ2)) ∧
  tracked σ1 0%nat = Some (pre ++ [PyStr "/tmp/tmpe"]) ∧
  (with_ 0%nat (body_of body) state_four).2 = σ2 ∧
  trace (fs σ2) = trace (fs σ1) ++ flat_map ok_events (pre ++ [PyStr "/tmp/tmpe"]) ∧
  Forall (λ v, ¬ path_exists (fs σ2) (path_of v)) pre.
Proof.
  intros body pre σ1 σ2.
  assert (H1 : tracked state_four 0%nat = Some pre) by (vm_compute; reflexivity).
  assert (H2 : body_of body 0%nat state_four = (Return tt, σ1)) by (vm_compute; reflexivity).
  assert (H3 : cleanup 0%nat σ1 = (Return tt, σ2)) by (vm_compute; reflexivity).
  split; [exact (conj H1 (conj H2 H3))|].
  destruct (proj2 enter_keeps_earlier_entries body 0%nat state_four pre _ σ1 _ σ2 H1 H2 H3)
    as (Ht & Hw & Htrace & Hgone).
  exact (conj Ht (conj Hw (conj Htrace Hgone))).
Defined.

(** C10, as stated, fails. A manager tracks a directory, a file created
    inside that directory and a second directory, all made before the
    scope. The scope is entered and left with an empty body; the cleanup of
    scope exit removes the first directory, fails on the file that went
    with it and raises, and the second directory, created before the
    scope, still exists after it. *)
Lemma enter_leaves_earlier_directory_counterexample :
  let after := with_ 0%nat (body_of []) state_nested in
  tracked state_nested 0%nat =
    Some [PyStr "/tmp/tmpa"; PyTuple 3 "/tmp/tmpa/tmpb"; PyStr "/tmp/tmpc"] ∧
  __enter__ 0%nat state_nested = (Return 0%nat, state_nested) ∧
  after.1 = Raise (FileNotFoundError "/tmp/tmpa/tmpb") ∧
  path_exists (fs after.2) "/tmp/tmpc".
Proof.
  intros after. split; [vm_compute; reflexivity|]. split; [reflexivity|].
  split; [vm_compute; reflexivity|]. unfold path_exists.
  exists Directory. vm_compute. reflexivity.
Qed.

(** C8. A new manager tracks nothing. Every method call then moves the
    tracked list by the lifecycle rule: a create call that returns appends
    exactly one entry, the returned handle, at the end; a cleanup that
    returns removes all entries at once; no call changes the list in any
    other way. The same holds along any sequence of calls. *)
Theorem tracked_follows_lifecycle :
  (∀ σ, ∃ self, (Tempfile_new σ).1 = Return self ∧ heap σ !! self = None ∧
                tracked (Tempfile_new σ).2 self = Some []) ∧
  (∀ self o σ l r σ',
     tracked σ self = Some l →
     run_op self o σ = (r, σ') →
     tracked σ' self = Some (next_tracked l o r) ∧
     (is_create o = true → returned r = true →
        ∃ v, r = Return (RetVal v) ∧ next_tracked l o r = l ++ [v])) ∧
  (∀ self ops σ l,
     tracked σ self = Some l →
     tracked (run_ops self ops σ).2 self =
       Some (tracked_after l ops (run_ops self ops σ).1)).
Proof.
  split; [|split].
  - intros σ. destruct (Tempfile_new_fresh σ) as (self & -> & Hnone).
    exists self. split; [done|]. split; [done|]. apply tracked_set_paths.
  - intros self o σ l r σ' Hl H.
    destruct (run_op_tracked _ _ _ _ _ _ Hl H) as [Ht Hv]. split; [done|].
    intros Hc Hr. destruct (Hv Hc Hr) as [v ->]. exists v. split; [done|].
    by destruct o.
  - intros self ops. induction ops as [|o ops IH]; intros σ l Hl; [done|].
    simpl. destruct (run_op self o σ) as [r σ1] eqn:Ho.
    apply (run_op_tracked _ _ _ _ _ _ Hl) in Ho as [Ht _].
    specialize (IH σ1 _ Ht). destruct (run_ops self ops σ1) as [rs σ2]. done.
Qed.

Lemma tracked_follows_lifecycle_witness :
  let ops := [OpMkstemp no_args; OpMkdtemp (MkArgs None None (Some "/nowhere"));
              OpMkdtemp no_args; OpCleanup; OpMkdtemp no_args] in
  tracked state1 0%nat = Some [] ∧
  (run_ops 0%nat ops state1).1 =
    [Return (RetVal (PyTuple 3 "/tmp/tmpa")); Raise (FileNotFoundError "/nowhere");
     Return (RetVal (PyStr "/tmp/tmpb")); Return RetNone;
     Return (RetVal (PyStr "/tmp/tmpc"))] ∧
  tracked (run_ops 0%nat ops state1).2 0%nat = Some [PyStr "/tmp/tmpc"].
Proof.
  intros ops.
  assert (H1 : tracked state1 0%nat = Some []) by (vm_compute; reflexivity).
  split; [exact H1|]. split; [vm_compute; reflexivity|].
  exact (proj2 (proj2 tracked_follows_lifecycle) 0%nat ops state1 [] H1).
Defined.

(** C9. Every tracked entry is a tuple that [tempfile.mkstemp] returned or
    a name that [tempfile.mkdtemp] returned; this holds for a new manager
    and every method call keeps it. What cleanup does with an entry follows
    from its shape alone: for a tuple it closes the entry's descriptor and
    then unlinks the entry's name, for a bare name it removes the tree of
    that name, and it makes no other call for the entry, also when one of
    these calls fails. A cleanup that returns has done exactly this for
    every tracked entry in turn; one that raises has done it for the
    entries before the failing one. So no descriptor is closed for a
    directory entry and no tree is removed for a file entry. *)
Theorem tracked_entries_keep_their_shape :
  (∀ σ self, (Tempfile_new σ).1 = Return self → tracked_inv (Tempfile_new σ).2 self) ∧
  (∀ self o σ r σ',
     tracked_inv σ self → run_op self o σ = (r, σ') → tracked_inv σ' self) ∧
  (∀ v σ r σ',
     cleanup_entry v σ = (r, σ') →
     ∃ evs, trace (fs σ') = trace (fs σ) ++ evs ∧ evs ≠ [] ∧
            Forall (λ ev, call_fits v (ev_call ev) = true) evs) ∧
  (∀ v σ σ',
     cleanup_entry v σ = (Return tt, σ') →
     trace (fs σ') =
       trace (fs σ) ++
       match v with
       | PyTuple fd name =>
           [Event (CallClose fd) (Return None); Event (CallUnlink name) (Return None)]
       | PyStr name => [Event (CallRmtree name) (Return None)]
       end) ∧
  (∀ self σ l r σ',
     tracked σ self = Some l →
     cleanup self σ = (r, σ') →
     match r with
     | Return _ => trace (fs σ') = trace (fs σ) ++ flat_map ok_events l
     | Raise e =>
         ∃ pre v post evs,
           l = pre ++ v :: post ∧ evs ∈ failed_events v e ∧
           trace (fs σ') = trace (fs σ) ++ flat_map ok_events pre ++ evs
     end).
Proof.
  split; [|split; [|split; [|split]]].
  - intros σ self. destruct (Tempfile_new_fresh σ) as (self' & -> & _).
    intros [= <-]. exists []. split; [apply tracked_set_paths | done].
  - intros self o σ r σ' (l & Hl & Hall) H.
    destruct (run_op_tracked _ _ _ _ _ _ Hl H) as [Ht Hv].
    destruct (run_op_trace _ _ _ _ _ _ Hl H) as (evs & Hevs & Hnew).
    exists (next_tracked l o r). split; [done|].
    assert (Hold : Forall (λ v, produced (fs σ') v = true) l).
    { eapply Forall_impl; [exact Hall|]. intros v Hp. simpl in *.
      by rewrite (produced_app _ _ _ _ Hevs), Hp. }
    destruct (is_create o) eqn:Hc, r as [x|e];
      try (destruct o; try discriminate Hc; simpl; by auto).
    destruct (Hv eq_refl eq_refl) as [v [= ->]].
    destruct (Hnew v eq_refl eq_refl) as (ev & Hin & Hp).
    assert (Hv' : produced (fs σ') v = true).
    { rewrite (produced_app _ _ _ _ Hevs). apply orb_true_iff. right.
      apply existsb_exists. exists ev. split; [by apply list_elem_of_In | done]. }
    destruct o; try discriminate Hc; simpl; apply Forall_app; by auto.
  - intros v σ r σ'. apply cleanup_entry_calls_fit.
  - intros v σ σ' H. apply cleanup_entry_return in H as (Ht & _).
    rewrite Ht. by destruct v.
  - intros self σ l r σ'. apply cleanup_trace.
Qed.

Lemma tracked_entries_keep_their_shape_witness :
  let l := [PyTuple 3 "/tmp/tmpa"; PyTuple 4 "/tmp/tmpb"; PyStr "/tmp/tmpc"; PyStr "/tmp/tmpd"] in
  let σ := (run_op 0%nat (OpMkdtemp no_args) state_four).2 in
  let σe := (cleanup_entry (PyTuple 3 "/tmp/tmpa") state_four).2 in
  let σc := (cleanup 0%nat state_four).2 in
  (tracked_inv state_four 0%nat ∧ tracked_inv σ 0%nat) ∧
  (cleanup_entry (PyTuple 3 "/tmp/tmpa") state_four = (Return tt, σe) ∧
   trace (fs σe) =
     trace (fs state_four) ++
     [Event (CallClose 3) (Return None); Event (CallUnlink "/tmp/tmpa") (Return None)]) ∧
  (tracked state_four 0%nat = Some l ∧
   cleanup 0%nat state_four = (Return tt, σc) ∧
   trace (fs σc) = trace (fs state_four) ++ flat_map ok_events l).
Proof.
  intros l σ σe σc.
  assert (H0 : tracked_inv state1 0%nat).
  { exact (proj1 tracked_entries_keep_their_shape state0 0%nat eq_refl). }
  assert (H1 : tracked_inv state_four 0%nat).
  { exists l. split; [vm_compute; reflexivity|]. repeat constructor. }
  assert (H2 : cleanup_entry (PyTuple 3 "/tmp/tmpa") state_four = (Return tt, σe))
    by (vm_compute; reflexivity).
  assert (H3 : tracked state_four 0%nat = Some l) by (vm_compute; reflexivity).
  assert (H4 : cleanup 0%nat state_four = (Return tt, σc)) by (vm_compute; reflexivity).
  destruct tracked_entries_keep_their_shape as (_ & Hkeep & _ & Hentry & Hall).
  split; [split; [exact H1|]|split].
  - exact (Hkeep 0%nat (OpMkdtemp no_args) state_four _ σ H1 (surjective_pairing _)).
  - exact (conj H2 (Hentry _ _ _ H2)).
  - exact (conj H3 (conj H4 (Hall _ _ _ _ _ H3 H4))).
Defined.

(** * Further properties of Tempfile *)

(** The cleaning of one entry only removes, and only what the entry
    reaches; it closes no descriptor but the entry's own. *)
Lemma cleanup_entry_frame v σ r σ' :
  cleanup_entry v σ = (r, σ') →
  nodes (fs σ') ⊆ nodes (fs σ) ∧
  (∀ q, touches v q = false → nodes (fs σ') !! q = nodes (fs σ) !! q) ∧
  (∀ fd, (∀ p, v ≠ PyTuple fd p) → (fd ∈ open_fds (fs σ') ↔ fd ∈ open_fds (fs σ))) ∧
  tempdir (fs σ') = tempdir (fs σ) ∧ names (fs σ') = names (fs σ).
Proof.
  assert (Hclose : ∀ fd w r' w', os_close fd w = (r', w') →
            nodes w' = nodes w ∧ tempdir w' = tempdir w ∧ names w' = names w ∧
            ∀ fd', fd' ≠ fd → (fd' ∈ open_fds w' ↔ fd' ∈ open_fds w)).
  { intros fd w r' w'. unfold os_close. destruct (decide _); intros [= <- <-]; simpl;
      (split; [done|]); (split; [done|]); (split; [done|]); intros fd' Hne; [|done].
    rewrite elem_of_difference, elem_of_singleton.
    split; [by intros [? _] | by intros ?; split]. }
  assert (Hunlink : ∀ p w r' w', os_unlink p w = (r', w') →
            nodes w' ⊆ nodes w ∧ open_fds w' = open_fds w ∧
            tempdir w' = tempdir w ∧ names w' = names w ∧
            ∀ q, q ≠ p → nodes w' !! q = nodes w !! q).
  { intros p w r' w'. unfold os_unlink.
    destruct (nodes w !! p) as [[]|]; intros [= <- <-]; simpl; repeat split; try done.
    - apply delete_subseteq.
    - intros q Hne. by apply lookup_delete_ne. }
  assert (Hrm : ∀ p w r' w', shutil_rmtree p w = (r', w') →
            nodes w' ⊆ nodes w ∧ open_fds w' = open_fds w ∧
            tempdir w' = tempdir w ∧ names w' = names w ∧
            ∀ q, under p q = false → nodes w' !! q = nodes w !! q).
  { intros p w r' w'. unfold shutil_rmtree.
    destruct (nodes w !! p) as [[]|]; intros [= <- <-]; simpl; repeat split; try done.
    - apply map_filter_subseteq.
    - intros q Hq. destruct (nodes w !! q) as [x|] eqn:Hx.
      + by apply map_lookup_filter_Some.
      + apply map_lookup_filter_None. by left. }
  destruct v as [fd p|p]; simpl; intros H.
  - unfold mbind, M_bind in H.
    destruct (platform (os_close fd) σ) as [[[]|e] σ1] eqn:H1;
      apply platform_inv in H1 as [_ H1]; apply Hclose in H1 as (Hn1 & Ht1 & Hm1 & Hf1).
    + apply platform_inv in H as [_ H2]. apply Hunlink in H2 as (Hn2 & Hf2 & Ht2 & Hm2 & Hq2).
      rewrite Hn1 in Hn2. split; [done|]. split; [|split; [|split; congruence]].
      * intros q Hq%bool_decide_eq_false. rewrite Hq2, Hn1; done.
      * intros fd' Hne. rewrite Hf2. apply Hf1. intros ->. by eapply Hne.
    + injection H as <- <-. rewrite Hn1. split; [done|]. split; [done|].
      split; [|done]. intros fd' Hne. apply Hf1. intros ->. by eapply Hne.
  - apply platform_inv in H as [_ H]. apply Hrm in H as (Hn & Hf & Ht & Hm & Hq).
    split; [done|]. split; [done|]. split; [|done]. intros fd' _. by rewrite Hf.
Qed.

Lemma cleanup_loop_frame l : ∀ σ r σ',
  cleanup_loop l σ = (r, σ') →
  nodes (fs σ') ⊆ nodes (fs σ) ∧
  (∀ q, (∀ v, v ∈ l → touches v q = false) → nodes (fs σ') !! q = nodes (fs σ) !! q) ∧
  (∀ fd, (∀ p, PyTuple fd p ∉ l) → (fd ∈ open_fds (fs σ') ↔ fd ∈ open_fds (fs σ))) ∧
  tempdir (fs σ') = tempdir (fs σ) ∧ names (fs σ') = names (fs σ).
Proof.
  induction l as [|v l IH]; simpl; intros σ r σ' H.
  - by injection H as <- <-.
  - unfold mbind, M_bind in H.
    destruct (cleanup_entry v σ) as [[[]|e] σ1] eqn:Hv;
      apply cleanup_entry_frame in Hv as (Hs & Hq & Hf & Ht & Hm).
    + apply IH in H as (Hs' & Hq' & Hf' & Ht' & Hm').
      split; [by etrans|]. split; [|split; [|split; congruence]].
      * intros q Hall. rewrite Hq', Hq; [done| |].
        -- apply Hall, list_elem_of_here.
        -- intros u Hu. by apply Hall, list_elem_of_further.
      * intros fd Hnot. rewrite Hf', Hf; [done| |].
        -- intros p ->. apply (Hnot p), list_elem_of_here.
        -- intros p Hin. by apply (Hnot p), list_elem_of_further.
    + injection H as <- <-. split; [done|]. split; [|split; [|done]].
      * intros q Hall. apply Hq, Hall, list_elem_of_here.
      * intros fd Hnot. apply Hf. intros p ->. apply (Hnot p), list_elem_of_here.
Qed.

(** Where the platform stands after a cleanup is where its loop left it. *)
Lemma cleanup_fs self σ l r σ' :
  tracked σ self = Some l →
  cleanup self σ = (r, σ') →
  ∃ r' σ1, cleanup_loop l σ = (r', σ1) ∧ fs σ' = fs σ1.
Proof.
  intros Hl H. rewrite (cleanup_unfold _ _ _ Hl) in H.
  destruct (cleanup_loop l σ) as [[[]|e] σ1]; injection H as <- <-; eauto.
Qed.

(** X1. Whatever its outcome, a cleanup removes nothing but tracked files
    and what lies in tracked directories, closes no descriptor but those of
    tracked file entries, and creates nothing. *)
Theorem cleanup_leaves_the_rest_alone self σ l r σ' :
  tracked σ self = Some l →
  cleanup self σ = (r, σ') →
  nodes (fs σ') ⊆ nodes (fs σ) ∧
  (∀ q, (∀ v, v ∈ l → touches v q = false) → nodes (fs σ') !! q = nodes (fs σ) !! q) ∧
  (∀ fd, (∀ p, PyTuple fd p ∉ l) → (fd ∈ open_fds (fs σ') ↔ fd ∈ open_fds (fs σ))).
Proof.
  intros Hl H. destruct (cleanup_fs _ _ _ _ _ Hl H) as (r' & σ1 & Hloop & ->).
  apply cleanup_loop_frame in Hloop as (Hs & Hq & Hf & _). done.
Qed.

Lemma cleanup_leaves_the_rest_alone_witness :
  let l := [PyStr "/tmp/tmpa"; PyTuple 3 "/tmp/tmpa/tmpb"; PyStr "/tmp/tmpc"] in
  let r := (cleanup 0%nat state_nested).1 in
  let σ' := (cleanup 0%nat state_nested).2 in
  (tracked state_nested 0%nat = Some l ∧ cleanup 0%nat state_nested = (r, σ')) ∧
  nodes (fs σ') ⊆ nodes (fs state_nested) ∧
  (∀ q, (∀ v, v ∈ l → touches v q = false) →
        nodes (fs σ') !! q = nodes (fs state_nested) !! q) ∧
  (∀ fd, (∀ p, PyTuple fd p ∉ l) →
         (fd ∈ open_fds (fs σ') ↔ fd ∈ open_fds (fs state_nested))).
Proof.
  intros l r σ'.
  assert (H1 : tracked state_nested 0%nat = Some l) by (vm_compute; reflexivity).
  assert (H2 : cleanup 0%nat state_nested = (r, σ')) by (vm_compute; reflexivity).
  exact (conj (conj H1 H2) (cleanup_leaves_the_rest_alone _ _ _ _ _ H1 H2)).
Defined.

(** A method call changes the object store at most at its own object. *)
Lemma run_op_heap self o σ r σ' :
  run_op self o σ = (r, σ') →
  heap σ' = heap σ ∨ ∃ t, heap σ' = <[self := t]> (heap σ).
Proof.
  assert (Hcleanup : ∀ r0 σ0, cleanup self σ = (r0, σ0) →
            heap σ0 = heap σ ∨ ∃ t, heap σ0 = <[self := t]> (heap σ)).
  { intros r0 σ0 H. destruct (tracked σ self) as [l|] eqn:Hl.
    - rewrite (cleanup_unfold _ _ _ Hl) in H.
      destruct (cleanup_loop l σ) as [[[]|e] σ1] eqn:Hloop;
        apply cleanup_loop_shrinks in Hloop as (Hh & _); injection H as <- <-; simpl.
      + right. exists (MkTempfile []). by rewrite Hh.
      + by left.
    - rewrite (cleanup_dangling _ _ Hl) in H. injection H as <- <-. by left. }
  assert (Hcreate : ∀ f r0 σ0,
            (path ← platform f; paths_append self path;; mret path) σ = (r0, σ0) →
            heap σ0 = heap σ ∨ ∃ t, heap σ0 = <[self := t]> (heap σ)).
  { intros f r0 σ0. rewrite create_unfold.
    destruct (f (fs σ)) as [[v|e] w]; [destruct (heap σ !! self) as [t|]|];
      intros [= <- <-]; simpl; eauto. }
  intros H. destruct o as [args|args| | |exc]; cbn [run_op] in H.
  - bind_cases (mkstemp self args σ) in H as [[v|e] σ1] eqn Hc;
      injection H as <- <-; by eapply Hcreate.
  - bind_cases (mkdtemp self args σ) in H as [[v|e] σ1] eqn Hc;
      injection H as <- <-; by eapply Hcreate.
  - bind_cases (cleanup self σ) in H as [[[]|e] σ1] eqn Hc;
      injection H as <- <-; by eapply Hcleanup.
  - injection H as <- <-. by left.
  - unfold __exit__ in H. bind_cases (cleanup self σ) in H as [[[]|e] σ1] eqn Hc;
      injection H as <- <-; by eapply Hcleanup.
Qed.

(** X2. Managers do not share their lists: whatever is called on one
    manager, and however the call ends, every other manager tracks what it
    tracked before. *)
Theorem other_managers_keep_their_entries self other o σ r σ' :
  other ≠ self →
  run_op self o σ = (r, σ') →
  tracked σ' other = tracked σ other.
Proof.
  intros Hne H. unfold tracked.
  destruct (run_op_heap _ _ _ _ _ H) as [->|[t ->]]; [done|].
  by rewrite lookup_insert_ne.
Qed.

Lemma other_managers_keep_their_entries_witness :
  let σ := (Tempfile_new state_four).2 in
  let res := run_op 0%nat OpCleanup σ in
  (1%nat ≠ 0%nat ∧ run_op 0%nat OpCleanup σ = (res.1, res.2)) ∧
  tracked res.2 1%nat = tracked σ 1%nat.
Proof.
  intros σ res.
  assert (H1 : 1%nat ≠ 0%nat) by discriminate.
  assert (H2 : run_op 0%nat OpCleanup σ = (res.1, res.2)) by apply surjective_pairing.
  exact (conj (conj H1 H2) (other_managers_keep_their_entries _ _ _ _ _ _ H1 H2)).
Defined.



(** * Properties of the list, string and dict helpers *)

#[local] Set Warnings "-clear-no-such-hyp".

(** ** unique_iter *)

Lemma filter_all {A} (P : A → Prop) `{!∀ x, Decision (P x)} (l : list A) :
  Forall P l → filter P l = l.
Proof.
  induction 1 as [|x l Hx _ IH]; [done|]. rewrite filter_cons_True by done. by f_equal.
Qed.

Section unique_iter_lemmas.
Context `{Countable A}.
Implicit Types (l : list A) (seen : gset A).

Lemma elem_of_unique_iter_from l : ∀ seen x,
  x ∈ unique_iter_from seen l ↔ x ∈ l ∧ x ∉ seen.
Proof.
  induction l as [|y l IH]; intros seen x; simpl.
  - split; [by intros ?%elem_of_nil | by intros [?%elem_of_nil _]].
  - destruct (decide (y ∈ seen)) as [Hy|Hy].
    + rewrite IH, elem_of_cons. split; [naive_solver|].
      intros [[->|Hx] Hn]; [done | by split].
    + rewrite elem_of_cons, IH, elem_of_cons, elem_of_union, elem_of_singleton.
      split; [naive_solver|].
      intros [[->|Hx] Hn]; [by left|].
      destruct (decide (x = y)) as [->|Hne]; [by left | right; naive_solver].
Qed.

Lemma NoDup_unique_iter_from l : ∀ seen, NoDup (unique_iter_from seen l).
Proof.
  induction l as [|y l IH]; intros seen; simpl; [constructor|].
  destruct (decide (y ∈ seen)); [done|]. constructor; [|done].
  rewrite elem_of_unique_iter_from, elem_of_union, elem_of_singleton. naive_solver.
Qed.

(** Starting with more elements seen filters the result. *)
Lemma unique_iter_from_union l : ∀ extra seen,
  unique_iter_from (extra ∪ seen) l =
    filter (λ x, x ∉ extra) (unique_iter_from seen l).
Proof.
  induction l as [|y l IH]; intros extra seen; simpl; [done|].
  destruct (decide (y ∈ seen)) as [Hy|Hy].
  - rewrite decide_True by (apply elem_of_union; by right). apply IH.
  - destruct (decide (y ∈ extra)) as [He|He].
    + rewrite decide_True by (apply elem_of_union; by left).
      rewrite filter_cons_False by (intros Hn; by apply Hn).
      rewrite <- IH. f_equal. apply leibniz_equiv. set_solver.
    + rewrite decide_False by (rewrite elem_of_union; naive_solver).
      rewrite filter_cons_True by done. f_equal.
      rewrite <- IH. f_equal. apply leibniz_equiv. set_solver.
Qed.

Lemma unique_iter_from_app l1 : ∀ l2 seen,
  unique_iter_from seen (l1 ++ l2) =
    unique_iter_from seen l1 ++ unique_iter_from (list_to_set l1 ∪ seen) l2.
Proof.
  induction l1 as [|y l1 IH]; intros l2 seen; simpl.
  - f_equal. apply leibniz_equiv. set_solver.
  - destruct (decide (y ∈ seen)) as [Hy|Hy].
    + rewrite IH. f_equal. f_equal. apply leibniz_equiv. set_solver.
    + simpl. rewrite IH. f_equal. f_equal. f_equal. apply leibniz_equiv. set_solver.
Qed.

(** X5. [unique_iter] returns every element of its argument, each of
    them once. *)
Theorem unique_iter_nodup_same_elements l :
  NoDup (unique_iter l) ∧ ∀ x, x ∈ unique_iter l ↔ x ∈ l.
Proof.
  split; [apply NoDup_unique_iter_from|].
  intros x. unfold unique_iter. rewrite elem_of_unique_iter_from. set_solver.
Qed.

(** X6. [unique_iter] keeps the first occurrence of each element and the
    order of these: the result for a list continued by a second list is
    the result for the first, then the result for the second without
    what occurs in the first. In particular the result is a sublist of
    the argument. *)
Theorem unique_iter_keeps_first_occurrences l1 l2 :
  unique_iter (l1 ++ l2) =
    unique_iter l1 ++ filter (λ x, x ∉ l1) (unique_iter l2) ∧
  unique_iter l1 `sublist_of` l1.
Proof.
  split.
  - unfold unique_iter. rewrite unique_iter_from_app, unique_iter_from_union.
    f_equal. apply list_filter_iff. intros x. by rewrite elem_of_list_to_set.
  - unfold unique_iter. generalize (∅ : gset A).
    induction l1 as [|y l1 IH]; intros seen; simpl; [done|].
    destruct (decide (y ∈ seen)); [by apply sublist_cons | by apply sublist_skip].
Qed.

(** X7. The lists [unique_iter] leaves as they are are those without a
    repeated element; so applying it a second time changes nothing. *)
Theorem unique_iter_fixes_nodup l :
  (unique_iter l = l ↔ NoDup l) ∧ unique_iter (unique_iter l) = unique_iter l.
Proof.
  assert (Hfix : ∀ l', NoDup l' → unique_iter l' = l').
  { intros l'. induction 1 as [|y l' Hy Hnd IH]; [done|].
    unfold unique_iter in *. simpl. rewrite decide_False by set_solver. f_equal.
    rewrite unique_iter_from_union, IH.
    apply filter_all, Forall_forall. intros x Hx ->%elem_of_singleton. done. }
  split; [split|].
  - intros <-. apply NoDup_unique_iter_from.
  - apply Hfix.
  - apply Hfix, NoDup_unique_iter_from.
Qed.
End unique_iter_lemmas.

(** ** default and makelist *)

(** X8. [default] returns the first of its positional arguments that is
    true, whatever comes after it; arguments that are false, such as [0],
    the empty string or [None], are passed over. When no argument is true
    it returns the [default] keyword argument, or [None] without one. *)
Theorem default_returns_first_truthy args kwargs :
  (∀ pre x post,
     args = pre ++ x :: post →
     Forall (λ a, truthy a = false) pre →
     truthy x = true →
     helpful_default args kwargs = x) ∧
  (Forall (λ a, truthy a = false) args →
   helpful_default args kwargs = from_option id ONone (kwargs !! "default")).
Proof.
  unfold helpful_default. split.
  - intros pre x post -> Hpre Hx. induction Hpre as [|a pre Ha _ IH]; simpl.
    + by rewrite Hx.
    + by rewrite Ha.
  - induction 1 as [|a l Ha _ IH]; simpl; [done|]. by rewrite Ha.
Qed.

Lemma default_returns_first_truthy_witness :
  helpful_default [ONone; OInt 0; OStr ""; OInt 5; OInt 7] ∅ = OInt 5 ∧
  helpful_default [ONone; OList []] (<["default" := OStr "x"]> ∅) = OStr "x".
Proof.
  split.
  - apply (proj1 (default_returns_first_truthy _ ∅) [ONone; OInt 0; OStr ""] (OInt 5) [OInt 7]);
      [reflexivity | repeat constructor | reflexivity].
  - etrans.
    + apply (proj2 (default_returns_first_truthy [ONone; OList []] (<["default" := OStr "x"]> ∅))).
      repeat constructor.
    + vm_compute. reflexivity.
Defined.

(** X9. [makelist] gives the empty list exactly for data that is false: an
    empty list, set or tuple, but also [None], [False], [0] and the empty
    string, which are dropped rather than wrapped. Applied to the list it
    returned it changes nothing. *)
Theorem makelist_empty_iff_falsy data :
  (makelist data = [] ↔ truthy data = false) ∧
  makelist (OList (makelist data)) = makelist data.
Proof.
  split; [|done].
  destruct data as [ |b|z|s|items|items|items]; simpl;
    try (destruct items; simpl; split; (done || discriminate)).
  - done.
  - by destruct b.
  - by destruct (z =? 0)%Z.
  - by destruct (String.eqb s "").
Qed.

(** ** padded_split *)

Lemma str_app_cons x (a b : string) : String x a +:+ b = String x (a +:+ b).
Proof. reflexivity. Qed.

Lemma str_app_assoc (a b c : string) : (a +:+ b) +:+ c = a +:+ (b +:+ c).
Proof. induction a as [|x a IH]; [done|]. rewrite !str_app_cons. by f_equal. Qed.













(** ** urljoin *)

Lemma concat_app (sep : string) (xs : list string) : ∀ ys : list string,
  xs ≠ [] → ys ≠ [] →
  String.concat sep (xs ++ ys) = String.concat sep xs +:+ sep +:+ String.concat sep ys.
Proof.
  induction xs as [|x xs IH]; intros ys Hx Hy; [done|].
  destruct xs as [|x' xs].
  - destruct ys as [|y ys]; [done|]. reflexivity.
  - change (String.concat sep ((x :: x' :: xs) ++ ys))
      with (x +:+ sep +:+ String.concat sep ((x' :: xs) ++ ys)).
    change (String.concat sep (x :: x' :: xs))
      with (x +:+ sep +:+ String.concat sep (x' :: xs)).
    rewrite IH by done. by rewrite !str_app_assoc.
Qed.

(** X12. Joining is piecewise: for two argument lists that are not empty,
    the url of all arguments is the url of the first list followed by the
    url of the second. Without arguments the result is ["/"]. *)
Theorem urljoin_app (xs ys : list string) :
  xs ≠ [] → ys ≠ [] →
  urljoin (xs ++ ys) = urljoin xs +:+ urljoin ys.
Proof.
  intros Hx Hy. unfold urljoin. rewrite fmap_app, concat_app.
  - by rewrite !str_app_assoc.
  - by destruct xs.
  - by destruct ys.
Qed.

Lemma urljoin_app_witness :
  urljoin (["/lol"; "///lol"] ++ ["/lol//"]) = "/lol/lol/lol" ∧
  urljoin (["/lol"; "///lol"] ++ ["/lol//"]) = urljoin ["/lol"; "///lol"] +:+ urljoin ["/lol//"].
Proof.
  split; [vm_compute; reflexivity|].
  apply urljoin_app; discriminate.
Defined.

(** A text that does not begin with a slash. *)
Definition no_leading_slash (s : string) : Prop :=
  match s with
  | EmptyString => True
  | String c _ => Ascii.eqb c slash = false
  end.

Lemma lstrip_slash_no_leading s : no_leading_slash (lstrip_slash s).
Proof.
  induction s as [|c s IH]; simpl; [done|].
  destruct (Ascii.eqb c slash) eqn:Hc; [done|]. exact Hc.
Qed.

Lemma lstrip_slash_id s : no_leading_slash s → lstrip_slash s = s.
Proof. destruct s as [|c s]; simpl; [done|]. by intros ->. Qed.

Lemma rstrip_slash_no_leading s : no_leading_slash s → no_leading_slash (rstrip_slash s).
Proof.
  destruct s as [|c s]; simpl; [done|]. intros Hc.
  destruct (rstrip_slash s); [by rewrite Hc | done].
Qed.

Lemma rstrip_slash_idem s : rstrip_slash (rstrip_slash s) = rstrip_slash s.
Proof.
  induction s as [|c s IH]; [done|]. cbn [rstrip_slash].
  destruct (rstrip_slash s) as [|d r] eqn:Hr.
  - destruct (Ascii.eqb c slash) eqn:Hc; [done|]. simpl. by rewrite Hc.
  - cbn [rstrip_slash]. cbn [rstrip_slash] in IH. by rewrite IH.
Qed.

(** X13. Stripping the slashes of a piece is idempotent, and so is joining
    a single piece: the url of a url is that url. *)
Theorem urljoin_single_idempotent (s : string) :
  strip_slash (strip_slash s) = strip_slash s ∧
  urljoin [urljoin [s]] = urljoin [s].
Proof.
  assert (Hidem : strip_slash (strip_slash s) = strip_slash s).
  { unfold strip_slash.
    rewrite (lstrip_slash_id (rstrip_slash _))
      by apply rstrip_slash_no_leading, lstrip_slash_no_leading.
    apply rstrip_slash_idem. }
  split; [done|]. unfold urljoin. simpl. f_equal.
  change (strip_slash (strip_slash s) = strip_slash s). done.
Qed.

(** ** sort_dict_by_key *)

Section sort_dict_by_key_lemmas.
Context `{Countable K} {V : Type} (R : relation K) `{!RelDecision R}.
Context `{!Transitive R, !Total R}.

#[local] Existing Instance by_key_dec.

#[local] Instance by_key_trans : Transitive (by_key (V:=V) R).
Proof. intros x y z. unfold by_key. apply transitivity. Qed.

#[local] Instance by_key_total : Total (by_key (V:=V) R).
Proof. intros x y. unfold by_key. apply total; apply _. Qed.

(** X14. The result of [sort_dict_by_key] lists the items in the order of
    their keys, has every key once, and as a mapping is the input: no
    item is lost, added or changed. *)
Theorem sort_dict_by_key_sorted_same_items (obj : gmap K V) :
  StronglySorted (by_key R) (sort_dict_by_key R obj) ∧
  NoDup (sort_dict_by_key R obj).*1 ∧
  list_to_map (sort_dict_by_key R obj) = obj.
Proof.
  unfold sort_dict_by_key.
  pose proof (merge_sort_Permutation (by_key R) (map_to_list obj)) as Hperm.
  split; [apply (StronglySorted_merge_sort _)|].
  assert (Hnd : NoDup (merge_sort (by_key R) (map_to_list obj)).*1).
  { rewrite Hperm. apply NoDup_fst_map_to_list. }
  split; [done|].
  rewrite <- (list_to_map_to_list obj) at 2.
  by apply list_to_map_proper.
Qed.
End sort_dict_by_key_lemmas.

Lemma sort_dict_by_key_sorted_same_items_witness :
  let obj : gmap Z string := <[3%Z := "c"]> (<[1%Z := "a"]> (<[2%Z := "b"]> ∅)) in
  sort_dict_by_key Z.le obj = [(1%Z, "a"); (2%Z, "b"); (3%Z, "c")] ∧
  StronglySorted (by_key Z.le) (sort_dict_by_key Z.le obj) ∧
  list_to_map (sort_dict_by_key Z.le obj) = obj.
Proof.
  intros obj. split; [vm_compute; reflexivity|].
  destruct (sort_dict_by_key_sorted_same_items Z.le obj) as (Hs & _ & Hm).
  split; [exact Hs | exact Hm].
Defined.

(** ** ClassDict *)

Lemma lookup_setattr (self other : nat) (name name' : string) (value : obj) (h : dstore) :
  __setattr__ self name value h !! other ≫= (.!! name') =
    if decide (other = self ∧ name' = name)
    then (λ _, value) <$> h !! self
    else h !! other ≫= (.!! name').
Proof.
  unfold __setattr__. destruct (decide (other = self)) as [->|Hne].
  - rewrite lookup_alter_eq. destruct (h !! self) as [d|]; simpl.
    + destruct (decide (name' = name)) as [->|Hn].
      * rewrite decide_True by done. apply lookup_insert_eq.
      * rewrite decide_False by naive_solver. by apply lookup_insert_ne.
    + by destruct (decide _).
  - rewrite lookup_alter_ne by done. rewrite decide_False by naive_solver. done.
Qed.

(** X15. On a [ClassDict], [__getattr__] of a name returns what
    [__setattr__] last stored under it, and storing under one name changes
    no other attribute of the object and no other object. *)
Theorem classdict_get_after_set (self : nat) (name : string) (value : obj) (h : dstore) :
  is_Some (h !! self) →
  __getattr__ self name (__setattr__ self name value h) = Return value ∧
  (∀ other name', ¬ (other = self ∧ name' = name) →
     __getattr__ other name' (__setattr__ self name value h) = __getattr__ other name' h).
Proof.
  intros [d Hd]. unfold __getattr__. split.
  - rewrite lookup_setattr, decide_True by done. by rewrite Hd.
  - intros other name' Hne. by rewrite lookup_setattr, decide_False.
Qed.

Lemma classdict_get_after_set_witness :
  let h : dstore := {[ 0%nat := {[ "hello" := OStr "world" ]} ]} in
  is_Some (h !! 0%nat) ∧
  __getattr__ 0%nat "hello" (__setattr__ 0%nat "hello" (OStr "wtf") h) = Return (OStr "wtf").
Proof.
  intros h.
  assert (H : is_Some (h !! 0%nat)) by (eexists; vm_compute; reflexivity).
  exact (conj H (proj1 (classdict_get_after_set 0%nat "hello" (OStr "wtf") h H))).
Defined.

(** X16. [__delattr__] of a name that is set removes it: reading it or
    deleting it again then raises [AttributeError], with the message that
    names the attribute, and changes nothing. For a name that is not set,
    [__getattr__] and [__delattr__] raise that [AttributeError] at once.
    Deleting a name that was set on an object which did not have it gives
    the object back as it was. *)
Theorem classdict_delete (self : nat) (name : string) (h : dstore) :
  let missing := AttributeError ("No such attribute: " +:+ name) in
  (∀ v, __getattr__ self name h = Return v →
     ∃ h', __delattr__ self name h = (Return tt, h') ∧
           __getattr__ self name h' = Raise missing ∧
           __delattr__ self name h' = (Raise missing, h')) ∧
  (h !! self ≫= (.!! name) = None →
     __getattr__ self name h = Raise missing ∧
     __delattr__ self name h = (Raise missing, h)) ∧
  (∀ d value, h !! self = Some d → d !! name = None →
     __delattr__ self name (__setattr__ self name value h) = (Return tt, h)).
Proof.
  intros missing. unfold __getattr__, __delattr__. split; [|split].
  - intros v Hv. destruct (h !! self ≫= (.!! name)) as [v'|] eqn:Hl; [|done].
    eexists. split; [done|].
    assert (alter (delete name) self h !! self ≫= (.!! name) = None) as ->; [|done].
    rewrite lookup_alter_eq. destruct (h !! self) as [d|]; simpl; [|done].
    apply lookup_delete_eq.
  - by intros ->.
  - intros d value Hd Hn. rewrite lookup_setattr, decide_True, Hd by done. simpl.
    f_equal. unfold __setattr__. apply map_eq. intros i.
    destruct (decide (i = self)) as [->|Hne].
    + rewrite !lookup_alter_eq, Hd. simpl. f_equal.
      rewrite delete_insert_eq. by apply delete_id.
    + by rewrite !lookup_alter_ne.
Qed.

Lemma classdict_delete_witness :
  let h : dstore := {[ 0%nat := {[ "hello" := OStr "world" ]} ]} in
  let missing := AttributeError "No such attribute: hello" in
  __getattr__ 0%nat "hello" h = Return (OStr "world") ∧
  ∃ h', __delattr__ 0%nat "hello" h = (Return tt, h') ∧
        __getattr__ 0%nat "hello" h' = Raise missing ∧
        __delattr__ 0%nat "hello" h' = (Raise missing, h').
Proof.
  intros h missing.
  assert (H : __getattr__ 0%nat "hello" h = Return (OStr "world")) by (vm_compute; reflexivity).
  exact (conj H (proj1 (classdict_delete 0%nat "hello" h) _ H)).
Defined.

(** X17. [copy] makes a new object, different from every object there is,
    with the attributes of the original, and leaves the existing objects
    as they are. The two are separate: storing an attribute on the copy
    changes no attribute of the original. *)
Theorem classdict_copy_is_separate (self : nat) (h : dstore) :
  is_Some (h !! self) →
  let '(new, h') := copy self h in
  h !! new = None ∧
  (∀ other, other ≠ new → h' !! other = h !! other) ∧
  (∀ name, __getattr__ new name h' = __getattr__ self name h) ∧
  (∀ name value name',
     __getattr__ self name' (__setattr__ new name value h') = __getattr__ self name' h).
Proof.
  intros [d Hd]. unfold copy. set (new := fresh (dom h)).
  assert (Hnew : h !! new = None) by apply not_elem_of_dom, is_fresh.
  assert (Hne : self ≠ new) by (intros <-; congruence).
  split; [done|]. split; [|split].
  - intros other Ho. by rewrite lookup_insert_ne.
  - intros name. unfold __getattr__. by rewrite lookup_insert_eq, Hd.
  - intros name value name'. unfold __getattr__.
    rewrite lookup_setattr, decide_False by naive_solver.
    by rewrite lookup_insert_ne.
Qed.

Lemma classdict_copy_is_separate_witness :
  let h : dstore := {[ 0%nat := {[ "hello" := OInt 1 ]} ]} in
  let h' := __setattr__ 1%nat "hello" (OInt 2) (copy 0%nat h).2 in
  is_Some (h !! 0%nat) ∧
  (copy 0%nat h).1 = 1%nat ∧
  __getattr__ 1%nat "hello" h' = Return (OInt 2) ∧
  __getattr__ 0%nat "hello" h' = __getattr__ 0%nat "hello" h.
Proof.
  intros h h'.
  assert (H : is_Some (h !! 0%nat)) by (eexists; vm_compute; reflexivity).
  split; [exact H|]. split; [vm_compute; reflexivity|]. split; [vm_compute; reflexivity|].
  pose proof (classdict_copy_is_separate 0%nat h H) as Hc.
  exact (proj2 (proj2 (proj2 Hc)) "hello" (OInt 2) "hello").
Defined.

(** ** generate_random_token *)

Lemma string_get_lt (s : string) : ∀ i, (i < String.length s)%nat → is_Some (String.get i s).
Proof.
  induction s as [|c s IH]; intros i Hi; simpl in *; [lia|].
  destruct i as [|i]; [by eexists|]. apply IH. lia.
Qed.

Section generate_random_token_lemmas.
Context {rng : Type} (randbelow : nat → rng → nat * rng).
Hypothesis randbelow_lt : ∀ n g, (0 < n)%nat → ((randbelow n g).1 < n)%nat.

Lemma token_loop_spec (n : nat) : ∀ g,
  ∃ tok, (token_loop randbelow n g).1 = Some tok ∧
         String.length tok = n ∧
         ∀ i c, String.get i tok = Some c → ∃ j, String.get j token_chars = Some c.
Proof.
  induction n as [|n IH]; intros g; simpl.
  - exists EmptyString. split; [done|]. split; [done|]. intros i c. by destruct i.
  - unfold random_choice.
    pose proof (randbelow_lt (String.length token_chars) g) as Hlt.
    destruct (randbelow (String.length token_chars) g) as [j g'] eqn:Hr. simpl in Hlt.
    assert (Hj : (j < String.length token_chars)%nat) by (apply Hlt; vm_compute; lia).
    destruct (string_get_lt token_chars j Hj) as [c Hc].
    rewrite Hc. destruct (IH g') as (tok & Htok & Hlen & Hall).
    destruct (token_loop randbelow n g') as [[rest|] g'']; simpl in Htok; [|done].
    injection Htok as ->. exists (String c tok). split; [done|]. split; [simpl; lia|].
    intros [|i] c' Hg; cbn [String.get] in Hg; [|by eapply Hall].
    injection Hg as <-. by exists j.
Qed.

(** X18. With a generator that keeps its draws below the bound, the
    token has exactly the requested number of characters (none for a
    length that is not positive), each of them a letter or a digit. *)
Theorem generate_random_token_length_and_alphabet (length : Z) (g : rng) :
  ∃ tok, (generate_random_token randbelow length g).1 = Some tok ∧
         String.length tok = Z.to_nat length ∧
         ∀ i c, String.get i tok = Some c → ∃ j, String.get j token_chars = Some c.
Proof. apply token_loop_spec. Qed.
End generate_random_token_lemmas.

Lemma generate_random_token_length_and_alphabet_witness :
  let randbelow := λ (n g : nat), ((g `mod` n)%nat, ((g * 7 + 3) `mod` 101)%nat) in
  (∀ n g, (0 < n)%nat → ((randbelow n g).1 < n)%nat) ∧
  ∃ tok, (generate_random_token randbelow 6 1%nat).1 = Some tok ∧
         String.length tok = Z.to_nat 6.
Proof.
  intros randbelow.
  assert (Hlt : ∀ n g, (0 < n)%nat → ((randbelow n g).1 < n)%nat).
  { intros n g Hn. simpl. apply Nat.mod_upper_bound. lia. }
  split; [exact Hlt|].
  destruct (generate_random_token_length_and_alphabet randbelow Hlt 6 1%nat)
    as (tok & Htok & Hlen & _).
  exists tok. split; [exact Htok | exact Hlen].
Defined.
